(** * Catalog layer of iceberg-go: identifiers, options, property reconciliation

    A shallow embedding of [catalog/catalog.go].  Go values are modelled as
    follows.

    - [string] is Rocq's [string] (a sequence of bytes).
    - A slice [[]string] is a [list string]; indexing and slicing return
      [option], [None] standing for the run-time panic of an out-of-range
      index or bound.
    - A map [map[string]string] is a reference: either [nil] or the address
      of a map object living in a heap.  Reading a nil map behaves like
      reading an empty map, [delete] on a nil map does nothing, assigning
      into a nil map panics.
    - Functions that touch map objects live in a small state-and-panic monad
      over the heap. *)

From Stdlib Require Import ZArith String Ascii.
From stdpp Require Import gmap strings list fin_maps pretty.

Local Open Scope string_scope.
Local Open Scope list_scope.

(** * Part I: the embedding *)

(** ** Slices *)

Module Slice.

Definition len {A} (s : list A) : Z := Z.of_nat (length s).

(** [s[i]]: panics unless [0 <= i < len(s)]. *)
Definition index {A} (s : list A) (i : Z) : option A :=
  if decide (0 ≤ i < len s)%Z then s !! Z.to_nat i else None.

(** [s[:hi]]: panics unless [0 <= hi <= len(s)] (the capacity of the slice
    is not modelled; the only bound used below is [len(s)-1]). *)
Definition slice_to {A} (s : list A) (hi : Z) : option (list A) :=
  if decide (0 ≤ hi ≤ len s)%Z then Some (take (Z.to_nat hi) s) else None.

End Slice.

(** ** Strings: the two library routines the catalog calls *)

Module Strings.

(** The loop of Go's [strings.TrimRight] for a cutset of ASCII bytes:
    [for len(s) > 0 { if !as.contains(s[len(s)-1]) { break }; s = s[:len(s)-1] }].
    The loop runs at most [len(s)] times, which is the fuel given below. *)
Fixpoint trimRight_loop (fuel : nat) (s cutset : list ascii) : list ascii :=
  match fuel with
  | O => s
  | S fuel' =>
      match last s with
      | None => s
      | Some c =>
          if decide (c ∈ cutset) then trimRight_loop fuel' (removelast s) cutset
          else s
      end
  end.

(** [strings.TrimRight(s, cutset)] for a cutset made of ASCII bytes. *)
Definition TrimRight (s cutset : string) : string :=
  if decide (s = "" ∨ cutset = "") then s
  else
    let bytes := list_ascii_of_string s in
    string_of_list_ascii
      (trimRight_loop (length bytes) bytes (list_ascii_of_string cutset)).

(** The elements of a [[]string] as [fmt]'s [%v] prints them: separated by
    one space. *)
Fixpoint fmt_elems (l : list string) : string :=
  match l with
  | [] => ""
  | [x] => x
  | x :: l' => x +:+ " " +:+ fmt_elems l'
  end.

(** [fmt.Sprintf("%v", l)] for [l : []string]. *)
Definition fmt_v (l : list string) : string := "[" +:+ fmt_elems l +:+ "]".

(** [n] copies of the byte [c]. *)
Definition replicate (n : nat) (c : ascii) : string :=
  string_of_list_ascii (repeat c n).

(** [k] occurs in [s] as a contiguous run of bytes. *)
Definition contains (s k : string) : Prop := ∃ pre post, s = pre +:+ k +:+ post.

End Strings.

(** ** Map objects *)

(** The address of a map object. *)
Definition loc := positive.

(** The heap holds the map objects that have been made so far. *)
Abbreviation heap := (gmap loc (gmap string string)).

(** A value of type [map[string]string] ([iceberg.Properties],
    [AwsProperties]): [nil] or a reference to a map object. *)
Inductive Properties :=
  | nil_map
  | ref (l : loc).

(** The entries a map value holds; a nil map holds none. *)
Definition contents (h : heap) (m : Properties) : gmap string string :=
  match m with
  | nil_map => ∅
  | ref l => default ∅ (h !! l)
  end.

(** What a computation leaves behind: a result and a heap, or a panic. *)
Inductive outcome (A : Type) :=
  | Done (a : A) (h : heap)
  | Panic (h : heap).
Arguments Done {A} a h.
Arguments Panic {A} h.


(** Computations over the heap that may panic. *)
Definition M (A : Type) : Type := heap → outcome A.

Definition ret {A} (a : A) : M A := λ h, Done a h.

Definition bind {A B} (c : M A) (k : A → M B) : M B :=
  λ h, match c h with
       | Done a h' => k a h'
       | Panic h' => Panic h'
       end.

Notation "'let*' x ':=' c 'in' k" := (bind c (λ x, k))
  (at level 10, x pattern, c at level 100, k at level 200, only parsing).

(** A [for] loop over a slice whose body updates the local variables [s]. *)
Fixpoint for_range {A S} (l : list A) (body : S → A → M S) (s : S) : M S :=
  match l with
  | [] => ret s
  | x :: l' => let* s' := body s x in for_range l' body s'
  end.

(** [v, ok := m[k]]: the zero value and [false] when [k] is absent or [m]
    is nil. *)
Definition map_get (m : Properties) (k : string) : M (string * bool) :=
  λ h, Done (match contents h m !! k with
             | Some v => (v, true)
             | None => ("", false)
             end) h.

(** [delete(m, k)]: does nothing on a nil map. *)
Definition map_delete (m : Properties) (k : string) : M unit :=
  λ h, match m with
       | nil_map => Done tt h
       | ref l => Done tt (<[l := delete k (contents h m)]> h)
       end.

(** [m[k] = v]: panics on a nil map. *)
Definition map_set (m : Properties) (k v : string) : M unit :=
  λ h, match m with
       | nil_map => Panic h
       | ref l => Done tt (<[l := <[k := v]> (contents h m)]> h)
       end.

(** [maps.Clone(m)]: nil for a nil map, else a new map object with the same
    entries. *)
Definition maps_Clone (m : Properties) : M Properties :=
  λ h, match m with
       | nil_map => Done nil_map h
       | ref _ => let l' := fresh (dom h) in Done (ref l') (<[l' := contents h m]> h)
       end.

(** The order in which [for k, v := range m] visits the entries of a map is
    not specified by the language.  A [range_order] picks one; it is
    admissible when it visits every entry exactly once. *)
Definition range_order := gmap string string → list (string * string).

Definition admissible (ro : range_order) : Prop :=
  ∀ m, ro m ≡ₚ map_to_list m.

(** The entries of [m] in the order the loop will visit them. *)
Definition map_range (ro : range_order) (m : Properties) : M (list (string * string)) :=
  λ h, Done (ro (contents h m)) h.

(** ** The catalog package *)

Module Catalog.

(** [table.Identifier] is [[]string]. *)
Definition Identifier := list string.

(** [TableNameFromIdent]; [None] would be a panic. *)
Definition TableNameFromIdent (ident : Identifier) : option string :=
  if decide (Slice.len ident = 0%Z) then Some ""
  else Slice.index ident (Slice.len ident - 1).

(** [NamespaceFromIdent]; [None] is the panic of the slice expression. *)
Definition NamespaceFromIdent (ident : Identifier) : option Identifier :=
  Slice.slice_to ident (Slice.len ident - 1).

(** *** Connection options *)

Section Options.

(** [aws.Config], [tls.Config] and [url.URL] come from other packages; the
    options below only store them. *)
Context {aws_Config tls_Config url_URL : Type}.

Record options := mk_options {
  awsConfig : aws_Config;
  awsProperties : Properties;
  tlsConfig : option tls_Config;
  credential : string;
  oauthToken : string;
  warehouseLocation : string;
  metadataLocation : string;
  enableSigv4 : bool;
  sigv4Region : string;
  sigv4Service : string;
  prefix : string;
  authUri : option url_URL
}.

(** The zero-valued record, given the zero value of [aws.Config]. *)
Definition options_zero (aws_Config_zero : aws_Config) : options :=
  {| awsConfig := aws_Config_zero; awsProperties := nil_map; tlsConfig := None;
     credential := ""; oauthToken := ""; warehouseLocation := "";
     metadataLocation := ""; enableSigv4 := false; sigv4Region := "";
     sigv4Service := ""; prefix := ""; authUri := None |}.

(** The three assignments the signing options make through the pointer. *)
Definition set_enableSigv4 (b : bool) (o : options) : options :=
  mk_options (awsConfig o) (awsProperties o) (tlsConfig o) (credential o)
    (oauthToken o) (warehouseLocation o) (metadataLocation o) b
    (sigv4Region o) (sigv4Service o) (prefix o) (authUri o).

Definition set_sigv4Region (r : string) (o : options) : options :=
  mk_options (awsConfig o) (awsProperties o) (tlsConfig o) (credential o)
    (oauthToken o) (warehouseLocation o) (metadataLocation o) (enableSigv4 o)
    r (sigv4Service o) (prefix o) (authUri o).

Definition set_sigv4Service (s : string) (o : options) : options :=
  mk_options (awsConfig o) (awsProperties o) (tlsConfig o) (credential o)
    (oauthToken o) (warehouseLocation o) (metadataLocation o) (enableSigv4 o)
    (sigv4Region o) s (prefix o) (authUri o).

(** [Option[T]] is a function that takes a pointer to [options]: here, the
    record behind the pointer before the call, and after it. *)
Definition Option := options → options.

Definition WithSigV4 : Option :=
  λ o, set_sigv4Service "execute-api" (set_enableSigv4 true o).

Definition WithSigV4RegionSvc (region service : string) : Option :=
  λ o,
    let o := set_enableSigv4 true o in
    let o := set_sigv4Region region o in
    if decide (service = "") then set_sigv4Service "execute-api" o
    else set_sigv4Service service o.

(** The other connection options: one assignment through the pointer
    each.  A [*tls.Config] or [*url.URL] argument may be nil ([None]). *)
Definition WithAwsConfig (cfg : aws_Config) : Option :=
  λ o, mk_options cfg (awsProperties o) (tlsConfig o) (credential o)
         (oauthToken o) (warehouseLocation o) (metadataLocation o)
         (enableSigv4 o) (sigv4Region o) (sigv4Service o) (prefix o) (authUri o).

Definition WithAwsProperties (props : Properties) : Option :=
  λ o, mk_options (awsConfig o) props (tlsConfig o) (credential o)
         (oauthToken o) (warehouseLocation o) (metadataLocation o)
         (enableSigv4 o) (sigv4Region o) (sigv4Service o) (prefix o) (authUri o).

Definition WithCredential (cred : string) : Option :=
  λ o, mk_options (awsConfig o) (awsProperties o) (tlsConfig o) cred
         (oauthToken o) (warehouseLocation o) (metadataLocation o)
         (enableSigv4 o) (sigv4Region o) (sigv4Service o) (prefix o) (authUri o).

Definition WithOAuthToken (token : string) : Option :=
  λ o, mk_options (awsConfig o) (awsProperties o) (tlsConfig o) (credential o)
         token (warehouseLocation o) (metadataLocation o)
         (enableSigv4 o) (sigv4Region o) (sigv4Service o) (prefix o) (authUri o).

Definition WithTLSConfig (config : option tls_Config) : Option :=
  λ o, mk_options (awsConfig o) (awsProperties o) config (credential o)
         (oauthToken o) (warehouseLocation o) (metadataLocation o)
         (enableSigv4 o) (sigv4Region o) (sigv4Service o) (prefix o) (authUri o).

Definition WithWarehouseLocation (loc : string) : Option :=
  λ o, mk_options (awsConfig o) (awsProperties o) (tlsConfig o) (credential o)
         (oauthToken o) loc (metadataLocation o)
         (enableSigv4 o) (sigv4Region o) (sigv4Service o) (prefix o) (authUri o).

Definition WithMetadataLocation (loc : string) : Option :=
  λ o, mk_options (awsConfig o) (awsProperties o) (tlsConfig o) (credential o)
         (oauthToken o) (warehouseLocation o) loc
         (enableSigv4 o) (sigv4Region o) (sigv4Service o) (prefix o) (authUri o).

Definition WithAuthURI (uri : option url_URL) : Option :=
  λ o, mk_options (awsConfig o) (awsProperties o) (tlsConfig o) (credential o)
         (oauthToken o) (warehouseLocation o) (metadataLocation o)
         (enableSigv4 o) (sigv4Region o) (sigv4Service o) (prefix o) uri.

Definition WithPrefix (pre : string) : Option :=
  λ o, mk_options (awsConfig o) (awsProperties o) (tlsConfig o) (credential o)
         (oauthToken o) (warehouseLocation o) (metadataLocation o)
         (enableSigv4 o) (sigv4Region o) (sigv4Service o) pre (authUri o).

(** A call of one of the eleven option constructors of the package, with
    its arguments. *)
Inductive option_call :=
  | CallWithAwsConfig (cfg : aws_Config)
  | CallWithAwsProperties (props : Properties)
  | CallWithCredential (cred : string)
  | CallWithOAuthToken (token : string)
  | CallWithTLSConfig (config : option tls_Config)
  | CallWithWarehouseLocation (loc : string)
  | CallWithMetadataLocation (loc : string)
  | CallWithSigV4
  | CallWithSigV4RegionSvc (region service : string)
  | CallWithAuthURI (uri : option url_URL)
  | CallWithPrefix (pre : string).

(** The option value the call returns. *)
Definition run_call (c : option_call) : Option :=
  match c with
  | CallWithAwsConfig cfg => WithAwsConfig cfg
  | CallWithAwsProperties props => WithAwsProperties props
  | CallWithCredential cred => WithCredential cred
  | CallWithOAuthToken token => WithOAuthToken token
  | CallWithTLSConfig config => WithTLSConfig config
  | CallWithWarehouseLocation loc => WithWarehouseLocation loc
  | CallWithMetadataLocation loc => WithMetadataLocation loc
  | CallWithSigV4 => WithSigV4
  | CallWithSigV4RegionSvc region service => WithSigV4RegionSvc region service
  | CallWithAuthURI uri => WithAuthURI uri
  | CallWithPrefix pre => WithPrefix pre
  end.

(** The part of the record a call writes to; the two signing options write
    to the same part, the three signing fields. *)
Definition slot (c : option_call) : nat :=
  match c with
  | CallWithAwsConfig _ => 0
  | CallWithAwsProperties _ => 1
  | CallWithCredential _ => 2
  | CallWithOAuthToken _ => 3
  | CallWithTLSConfig _ => 4
  | CallWithWarehouseLocation _ => 5
  | CallWithMetadataLocation _ => 6
  | CallWithSigV4 => 7
  | CallWithSigV4RegionSvc _ _ => 7
  | CallWithAuthURI _ => 8
  | CallWithPrefix _ => 9
  end.

(** Option values applied to a record one after the other, first to last,
    as a constructor that receives [opts ...Option[T]] does. *)
Definition apply_options (calls : list option_call) (o : options) : options :=
  foldl (λ o c, run_call c o) o calls.

End Options.

Arguments options : clear implicits.
Arguments Option : clear implicits.
Arguments option_call : clear implicits.

(** *** Namespace properties *)

Record PropertiesUpdateSummary := mk_summary {
  Removed : list string;
  Updated : list string;
  Missing : list string
}.

(** [PropertiesUpdateSummary{}]. *)
Definition summary_zero : PropertiesUpdateSummary := mk_summary [] [] [].

(** Modelled from the spec: [iceberg.Difference] is declared in a file of the
    root package that is not part of the sources at hand.  The spec calls its
    result "the set difference of the originally requested removals against
    the keys actually recorded in Removed": the elements of [a], in their
    order, that do not occur in [b]. *)
Definition Difference (a b : list string) : list string :=
  filter (λ x, x ∉ b) a.

(** The value of type [error]: [nil], or an error with its message. *)
Definition error := option string.

(** The body of the loop of [checkForOverlap], with the local [overlap]
    passed in and out. *)
Definition overlap_body (updates : Properties) (overlap : list string) (key : string)
  : M (list string) :=
  let* (_, ok) := map_get updates key in
  if ok : bool then ret (overlap ++ [key]) else ret overlap.

Definition checkForOverlap (removals : list string) (updates : Properties) : M error :=
  let* overlap := for_range removals (overlap_body updates) [] in
  if decide (Slice.len overlap > 0)%Z
  then ret (Some ("conflict between removals and updates for keys: "
                  +:+ Strings.fmt_v overlap))
  else ret None.

(** The body of [for _, key := range removals], with the local [removed]
    passed in and out. *)
Definition removal_body (updatedProps : Properties) (removed : list string)
    (key : string) : M (list string) :=
  let* (_, exists_) := map_get updatedProps key in
  if exists_ : bool then
    let* _ := map_delete updatedProps key in
    ret (removed ++ [key])
  else ret removed.

(** The body of [for key, value := range updates], with the local [updated]
    passed in and out. *)
Definition update_body (updatedProps : Properties) (updated : list string)
    (entry : string * string) : M (list string) :=
  let (key, value) := entry in
  let* (cur, _) := map_get updatedProps key in
  if decide (cur ≠ value) then
    let updated := updated ++ [key] in
    let* _ := map_set updatedProps key value in
    ret updated
  else ret updated.

(** The entries of [updates] are read when the loop over them starts: the
    loop writes to [updatedProps] only, which is nil or the object that
    [maps.Clone] has just made. *)
Definition getUpdatedPropsAndUpdateSummary (ro : range_order)
    (currentProps : Properties) (removals : list string) (updates : Properties)
  : M (Properties * PropertiesUpdateSummary * error) :=
  let* err := checkForOverlap removals updates in
  match err with
  | Some e => ret (nil_map, summary_zero, Some e)
  | None =>
      let* updatedProps := maps_Clone currentProps in
      let* removed := for_range removals (removal_body updatedProps) [] in
      let* entries := map_range ro updates in
      let* updated := for_range entries (update_body updatedProps) [] in
      let summary :=
        {| Removed := removed;
           Updated := updated;
           Missing := Difference removals removed |} in
      ret (updatedProps, summary, None)
  end.

(** *** Table-creation options *)

Section CreateTable.

(** [iceberg.PartitionSpec] and [table.SortOrder] come from other packages. *)
Context {iceberg_PartitionSpec table_SortOrder : Type}.

Record createTableCfg := mk_createTableCfg {
  location : string;
  partitionSpec : option iceberg_PartitionSpec;
  sortOrder : table_SortOrder;
  properties : Properties
}.

(** [createTableOpt] is a function that takes a pointer to
    [createTableCfg]. *)
Definition createTableOpt := createTableCfg → createTableCfg.

Definition WithLocation (loc : string) : createTableOpt :=
  λ cfg, mk_createTableCfg (Strings.TrimRight loc "/") (partitionSpec cfg)
           (sortOrder cfg) (properties cfg).

Definition WithPartitionSpec (spec : option iceberg_PartitionSpec) : createTableOpt :=
  λ cfg, mk_createTableCfg (location cfg) spec (sortOrder cfg) (properties cfg).

Definition WithSortOrder (order : table_SortOrder) : createTableOpt :=
  λ cfg, mk_createTableCfg (location cfg) (partitionSpec cfg) order (properties cfg).

Definition WithProperties (props : Properties) : createTableOpt :=
  λ cfg, mk_createTableCfg (location cfg) (partitionSpec cfg) (sortOrder cfg) props.

End CreateTable.

Arguments createTableCfg : clear implicits.
Arguments createTableOpt : clear implicits.

End Catalog.

(** ** The root package: the names of operations

    [operation_string.go], generated by [stringer].  [Operation] is an
    integer type declared elsewhere in the package; its values are integers
    here, and the index checks of the generated file pin the nineteen
    constants [OpTrue], ..., [OpOr] to 0, ..., 18. *)

Module Operation.

Definition _Operation_name : string :=
  "TrueFalseIsNullNotNullIsNaNNotNaNLessThanLessThanEqualGreaterThanGreaterThanEqualEqualNotEqualStartsWithNotStartsWithInNotInNotAndOr".

Definition _Operation_index : list Z :=
  [0; 4; 9; 15; 22; 27; 33; 41; 54; 65; 81; 86; 94; 104; 117; 119; 124; 127;
   130; 132]%Z.

(** [s[lo:hi]] on a string: panics unless [0 <= lo <= hi <= len(s)]. *)
Definition string_slice (s : string) (lo hi : Z) : option string :=
  if decide (0 ≤ lo ∧ lo ≤ hi ∧ hi ≤ Z.of_nat (String.length s))%Z
  then Some (substring (Z.to_nat lo) (Z.to_nat (hi - lo)) s)
  else None.

(** [strconv.FormatInt(i, 10)]: the decimal digits, after a minus sign for
    a negative number. *)
Definition FormatInt10 (i : Z) : string := pretty i.

(** The method [String]; [None] would be a panic of an index or slice
    expression. *)
Definition String (i : Z) : option string :=
  if decide (i < 0 ∨ i >= Slice.len _Operation_index - 1)%Z
  then Some ("Operation(" +:+ FormatInt10 i +:+ ")")
  else
    lo ← Slice.index _Operation_index i;
    hi ← Slice.index _Operation_index (i + 1);
    string_slice _Operation_name lo hi.

(** The names in the order of the constants. *)
Definition names : list string :=
  ["True"; "False"; "IsNull"; "NotNull"; "IsNaN"; "NotNaN"; "LessThan";
   "LessThanEqual"; "GreaterThan"; "GreaterThanEqual"; "Equal"; "NotEqual";
   "StartsWith"; "NotStartsWith"; "In"; "NotIn"; "Not"; "And"; "Or"].

End Operation.

(** ** The loops of the reconciler, read as functions on entries

    The proofs below compare the loops of
    [getUpdatedPropsAndUpdateSummary], which act on a map object in the
    heap, with these folds over the entries of that object. *)

Module Loops.

(** A map value refers to a map object of the heap, or is nil. *)
Definition valid (h : heap) (m : Properties) : Prop :=
  match m with
  | nil_map => True
  | ref l => is_Some (h !! l)
  end.

(** No requested removal is a key of the update map. *)
Definition no_overlap (U : gmap string string) (removals : list string) : Prop :=
  ∀ k, k ∈ removals → U !! k = None.

(** The removals that are keys of the update map, in request order. *)
Definition overlap_keys (U : gmap string string) (removals : list string) : list string :=
  filter (λ k, is_Some (U !! k)) removals.

Definition conflict_message (overlap : list string) : string :=
  "conflict between removals and updates for keys: " +:+ Strings.fmt_v overlap.

(** One turn of the removal loop on the entries [st.1], with [st.2] the keys
    removed so far. *)
Definition remove_step (st : gmap string string * list string) (key : string)
  : gmap string string * list string :=
  if decide (is_Some (st.1 !! key)) then (delete key st.1, st.2 ++ [key]) else st.

(** What [m[key]] evaluates to: the zero value when the key is absent. *)
Definition read (m : gmap string string) (key : string) : string :=
  default "" (m !! key).

(** One turn of the update loop. *)
Definition update_step (st : gmap string string * list string) (kv : string * string)
  : gmap string string * list string :=
  if decide (read st.1 kv.1 ≠ kv.2) then (<[kv.1 := kv.2]> st.1, st.2 ++ [kv.1]) else st.

End Loops.

(** ** Sample inputs

    The example of the specification: the current properties [a=1, b=2] at
    address 1 and the updates [a=1, d=4] at address 2; then an update that
    sets the absent key [k] to the empty string, and an empty current map. *)

Module Sample.

Definition current_map : gmap string string := {[ "a" := "1"; "b" := "2" ]}.

Definition updates_map : gmap string string := {[ "a" := "1"; "d" := "4" ]}.

Definition heap0 : heap := {[ 1%positive := current_map; 2%positive := updates_map ]}.

Definition heap1 : heap := {[ 1%positive := ∅; 2%positive := {[ "k" := "" ]} ]}.

(** A current map [b=2] at address 1, for a removal request that names a
    key twice. *)
Definition heap2 : heap := {[ 1%positive := {[ "b" := "2" ]} ]}.

End Sample.

(** * Part II: properties *)

Import Catalog.

(** ** Slices and identifiers *)

Lemma len_app_one {A} (s : list A) (x : A) :
  (Slice.len (s ++ [x]) - 1 = Slice.len s)%Z.
Proof. unfold Slice.len. rewrite length_app. simpl. lia. Qed.

Lemma index_last {A} (s : list A) (x : A) :
  Slice.index (s ++ [x]) (Slice.len (s ++ [x]) - 1) = Some x.
Proof.
  rewrite len_app_one. unfold Slice.index.
  destruct (decide _) as [_|Hn].
  - unfold Slice.len. rewrite Nat2Z.id. by rewrite list_lookup_middle.
  - exfalso. apply Hn. unfold Slice.len. rewrite length_app. simpl. lia.
Qed.

Lemma slice_to_init {A} (s : list A) (x : A) :
  Slice.slice_to (s ++ [x]) (Slice.len (s ++ [x]) - 1) = Some s.
Proof.
  rewrite len_app_one. unfold Slice.slice_to.
  destruct (decide _) as [_|Hn].
  - unfold Slice.len. rewrite Nat2Z.id. by rewrite take_app_length.
  - exfalso. apply Hn. unfold Slice.len. rewrite length_app. simpl. lia.
Qed.

Lemma snoc_of_nonempty {A} (s : list A) :
  (1 ≤ length s)%nat → ∃ init x, s = init ++ [x].
Proof.
  intros Hlen. destruct s as [|a s _] using rev_ind; [simpl in Hlen; lia|].
  eauto.
Qed.

Lemma TableNameFromIdent_snoc (ns : Identifier) (name : string) :
  TableNameFromIdent (ns ++ [name]) = Some name.
Proof.
  unfold TableNameFromIdent. destruct (decide _) as [He|_].
  - unfold Slice.len in He. rewrite length_app in He. simpl in He. lia.
  - apply index_last.
Qed.

Lemma NamespaceFromIdent_snoc (ns : Identifier) (name : string) :
  NamespaceFromIdent (ns ++ [name]) = Some ns.
Proof. apply slice_to_init. Qed.

Lemma TableNameFromIdent_total (ident : Identifier) :
  is_Some (TableNameFromIdent ident).
Proof.
  destruct ident as [|a ident _] using rev_ind.
  - by eexists.
  - rewrite TableNameFromIdent_snoc. by eexists.
Qed.

(** C6: for an identifier of length at least 1, [TableNameFromIdent] returns
    its last segment and [NamespaceFromIdent] returns all segments but the
    last, a sequence of length [len(id)-1] (empty for a one-segment
    identifier); for the empty identifier [TableNameFromIdent] returns the
    empty string, and there is no identifier on which it panics. *)
Theorem ident_decomposition (ident : Identifier) :
  TableNameFromIdent [] = Some ""
  ∧ is_Some (TableNameFromIdent ident)
  ∧ ((1 ≤ length ident)%nat →
     ∃ ns name,
       ident = ns ++ [name]
       ∧ TableNameFromIdent ident = Some name
       ∧ last ident = Some name
       ∧ NamespaceFromIdent ident = Some ns
       ∧ length ns = (length ident - 1)%nat
       ∧ (length ident = 1%nat → ns = [])).
Proof.
  split; [done|]. split; [apply TableNameFromIdent_total|].
  intros Hlen. destruct (snoc_of_nonempty ident Hlen) as (ns & name & ->).
  exists ns, name. split_and!.
  - done.
  - apply TableNameFromIdent_snoc.
  - apply last_snoc.
  - apply NamespaceFromIdent_snoc.
  - rewrite length_app. simpl. lia.
  - rewrite length_app. simpl. intros H1. destruct ns; [done|simpl in H1; lia].
Qed.

(** C9: [NamespaceFromIdent] panics on the empty identifier (the upper bound
    of the slice expression is [-1]) and returns on exactly the identifiers
    of length at least 1. *)
Theorem NamespaceFromIdent_partial (ident : Identifier) :
  NamespaceFromIdent [] = None
  ∧ (is_Some (NamespaceFromIdent ident) ↔ (1 ≤ length ident)%nat).
Proof.
  split; [done|]. split.
  - intros [ns Hns]. destruct ident; [discriminate Hns|simpl; lia].
  - intros Hlen. destruct (snoc_of_nonempty ident Hlen) as (ns & name & ->).
    rewrite NamespaceFromIdent_snoc. by eexists.
Qed.

(** ** Connection options *)

(** C7: applied to the zero-valued record, [WithSigV4RegionSvc region service]
    turns signing on, stores the region, and stores the service, or
    ["execute-api"] when the service is the empty string; every other field
    stays at its zero value.  [WithSigV4] turns signing on with the service
    ["execute-api"] and leaves the region alone. *)
Theorem WithSigV4RegionSvc_zero {aws_Config tls_Config url_URL : Type}
    (z : aws_Config) (region service : string) :
  let zero : options aws_Config tls_Config url_URL := options_zero z in
  let o := WithSigV4RegionSvc region service zero in
  enableSigv4 o = true
  ∧ sigv4Region o = region
  ∧ sigv4Service o = (if decide (service = "") then "execute-api" else service)
  ∧ o = mk_options z nil_map None "" "" "" "" true region (sigv4Service o) "" None
  ∧ WithSigV4RegionSvc region "" zero
    = mk_options z nil_map None "" "" "" "" true region "execute-api" "" None
  ∧ enableSigv4 (WithSigV4 zero) = true
  ∧ sigv4Service (WithSigV4 zero) = "execute-api"
  ∧ WithSigV4 zero = mk_options z nil_map None "" "" "" "" true "" "execute-api" "" None.
Proof.
  intros zero o. subst o zero. unfold WithSigV4RegionSvc, WithSigV4.
  destruct (decide (service = "")); simpl; done.
Qed.

(** ** Trimming and the table-creation options *)

Lemma string_of_list_ascii_app (a b : list ascii) :
  string_of_list_ascii (a ++ b) = string_of_list_ascii a +:+ string_of_list_ascii b.
Proof. induction a as [|c a IH]; simpl; [done|by rewrite IH]. Qed.

Lemma list_ascii_of_string_app (a b : string) :
  list_ascii_of_string (a +:+ b) = list_ascii_of_string a ++ list_ascii_of_string b.
Proof. induction a as [|c a IH]; simpl; [done|by rewrite IH]. Qed.

(** The loop stops at the longest prefix that does not end in a byte of the
    cutset; what it drops are bytes of the cutset. *)
Lemma trimRight_loop_spec (cutset : list ascii) (fuel : nat) (s : list ascii) :
  (length s ≤ fuel)%nat →
  ∃ t, s = Strings.trimRight_loop fuel s cutset ++ t
       ∧ Forall (λ c, c ∈ cutset) t
       ∧ ∀ c, last (Strings.trimRight_loop fuel s cutset) = Some c → c ∉ cutset.
Proof.
  revert s. induction fuel as [|fuel IH]; intros s Hlen.
  - destruct s; [|simpl in Hlen; lia]. exists []. simpl. split_and!; [done..|].
    intros c Hc. discriminate Hc.
  - destruct s as [|c s _] using rev_ind.
    + exists []. simpl. split_and!; [done..|]. intros c Hc. discriminate Hc.
    + simpl. rewrite last_snoc. destruct (decide (c ∈ cutset)) as [Hin|Hout].
      * rewrite removelast_last.
        rewrite length_app in Hlen. simpl in Hlen.
        destruct (IH s ltac:(lia)) as (t & Hs & Ht & Hlast).
        exists (t ++ [c]). split_and!.
        -- rewrite app_assoc. by rewrite <- Hs.
        -- apply Forall_app. split; [done|]. by apply Forall_singleton.
        -- done.
      * exists []. rewrite app_nil_r. split_and!; [done..|].
        intros c' Hc'. rewrite last_snoc in Hc'. by inversion Hc'; subst.
Qed.

Lemma Forall_eq_repeat {A} (x : A) (t : list A) :
  Forall (λ c, c ∈ [x]) t → t = repeat x (length t).
Proof.
  induction 1 as [|c t Hc _ IH]; simpl; [done|].
  apply list_elem_of_singleton in Hc. by rewrite Hc, <- IH.
Qed.

(** [TrimRight s "/"] is [s] without its trailing slashes. *)
Lemma TrimRight_slash (s : string) :
  (∃ n, s = Strings.TrimRight s "/" +:+ Strings.replicate n "/")
  ∧ ∀ r, Strings.TrimRight s "/" ≠ r +:+ "/".
Proof.
  unfold Strings.TrimRight. destruct (decide _) as [[->| ?]|_]; [|done|].
  - split; [by exists 0%nat|]. intros [|c r]; discriminate.
  - cbn zeta. change (list_ascii_of_string "/") with ["/"%char].
    destruct (trimRight_loop_spec ["/"%char] (length (list_ascii_of_string s))
                (list_ascii_of_string s) ltac:(lia)) as (t & Hs & Ht & Hlast).
    set (r := Strings.trimRight_loop _ _ _) in *. split.
    + exists (length t). unfold Strings.replicate.
      rewrite <- (Forall_eq_repeat _ _ Ht), <- string_of_list_ascii_app, <- Hs.
      by rewrite string_of_list_ascii_of_string.
    + intros r' Hr'. apply (Hlast "/"%char); [|by apply list_elem_of_singleton].
      apply (f_equal list_ascii_of_string) in Hr'.
      rewrite list_ascii_of_string_of_list_ascii, list_ascii_of_string_app in Hr'.
      rewrite Hr'. apply last_snoc.
Qed.

(** C8: [WithLocation] stores the location without its trailing slashes and
    touches no other field; each of the four table-creation options stores
    its argument in its field and touches no other field, and applied a
    second time it overwrites what the first application stored, so that
    the field holds the value applied last. *)
Theorem WithLocation_trims {iceberg_PartitionSpec table_SortOrder : Type}
    (cfg : createTableCfg iceberg_PartitionSpec table_SortOrder) (loc : string) :
  let cfg' := WithLocation loc cfg in
  location cfg' = Strings.TrimRight loc "/"
  ∧ (∃ n, loc = location cfg' +:+ Strings.replicate n "/")
  ∧ (∀ r, location cfg' ≠ r +:+ "/")
  ∧ partitionSpec cfg' = partitionSpec cfg
  ∧ sortOrder cfg' = sortOrder cfg
  ∧ properties cfg' = properties cfg
  ∧ (∀ loc2, WithLocation loc2 cfg' = WithLocation loc2 cfg)
  ∧ (∀ s1 s2, WithPartitionSpec s2 (WithPartitionSpec s1 cfg) = WithPartitionSpec s2 cfg)
  ∧ (∀ o1 o2, WithSortOrder o2 (WithSortOrder o1 cfg) = WithSortOrder o2 cfg)
  ∧ (∀ p1 p2, WithProperties p2 (WithProperties p1 cfg) = WithProperties p2 cfg)
  ∧ (∀ s o p, location (WithPartitionSpec s cfg') = location cfg'
              ∧ location (WithSortOrder o cfg') = location cfg'
              ∧ location (WithProperties p cfg') = location cfg')
  ∧ (∀ s, partitionSpec (WithPartitionSpec s cfg) = s
          ∧ location (WithPartitionSpec s cfg) = location cfg
          ∧ sortOrder (WithPartitionSpec s cfg) = sortOrder cfg
          ∧ properties (WithPartitionSpec s cfg) = properties cfg)
  ∧ (∀ o, sortOrder (WithSortOrder o cfg) = o
          ∧ location (WithSortOrder o cfg) = location cfg
          ∧ partitionSpec (WithSortOrder o cfg) = partitionSpec cfg
          ∧ properties (WithSortOrder o cfg) = properties cfg)
  ∧ (∀ p, properties (WithProperties p cfg) = p
          ∧ location (WithProperties p cfg) = location cfg
          ∧ partitionSpec (WithProperties p cfg) = partitionSpec cfg
          ∧ sortOrder (WithProperties p cfg) = sortOrder cfg)
  ∧ (∀ loc2, location (WithLocation loc2 cfg') = Strings.TrimRight loc2 "/")
  ∧ (∀ s1 s2, partitionSpec (WithPartitionSpec s2 (WithPartitionSpec s1 cfg)) = s2)
  ∧ (∀ o1 o2, sortOrder (WithSortOrder o2 (WithSortOrder o1 cfg)) = o2)
  ∧ (∀ p1 p2, properties (WithProperties p2 (WithProperties p1 cfg)) = p2).
Proof.
  intros cfg'. subst cfg'. simpl.
  destruct (TrimRight_slash loc) as [Hn Hr]. split_and!; done.
Qed.

(** ** The removal loop and the update loop on entries *)

Import Loops.

Lemma filter_ext_elem {A} (P Q : A → Prop) `{!∀ x, Decision (P x)}
    `{!∀ x, Decision (Q x)} (l : list A) :
  (∀ x, x ∈ l → (P x ↔ Q x)) → filter P l = filter Q l.
Proof.
  induction l as [|a l IH]; intros HPQ; [done|].
  rewrite !filter_cons.
  rewrite IH by (intros x Hx; apply HPQ; by right).
  destruct (decide (P a)) as [Hp|Hp], (decide (Q a)) as [Hq|Hq]; try done.
  - exfalso. apply Hq, HPQ; [by left|done].
  - exfalso. apply Hp, HPQ; [by left|done].
Qed.

Lemma remove_step_present (m : gmap string string) (acc : list string) (key : string) :
  is_Some (m !! key) → remove_step (m, acc) key = (delete key m, acc ++ [key]).
Proof. intros Hs. unfold remove_step. simpl. by rewrite decide_True. Qed.

Lemma remove_step_absent (m : gmap string string) (acc : list string) (key : string) :
  m !! key = None → remove_step (m, acc) key = (m, acc).
Proof.
  intros Hn. unfold remove_step. simpl. rewrite decide_False; [done|].
  rewrite Hn. by intros [? ?].
Qed.

(** The removal loop deletes exactly the requested keys, and records, once
    each, those that were present. *)
Lemma remove_all_spec (removals : list string) (m : gmap string string)
    (acc : list string) :
  let r := foldl remove_step (m, acc) removals in
  (∀ k, r.1 !! k = if decide (k ∈ removals) then None else m !! k)
  ∧ ∃ new, r.2 = acc ++ new
           ∧ NoDup new
           ∧ ∀ k, k ∈ new ↔ k ∈ removals ∧ is_Some (m !! k).
Proof.
  revert m acc. induction removals as [|a l IH]; intros m acc; simpl.
  - split; [done|]. exists []. rewrite app_nil_r. split_and!; [done|constructor|].
    intros k. split; [by intros ?%elem_of_nil|by intros [?%elem_of_nil _]].
  - destruct (decide (is_Some (m !! a))) as [Ha|Ha].
    + rewrite remove_step_present by done.
      destruct (IH (delete a m) (acc ++ [a])) as (Hm & new & Hacc & Hnd & Hin).
      split.
      * intros k. rewrite Hm. destruct (decide (k = a)) as [->|Hne].
        -- rewrite lookup_delete_eq. rewrite (decide_True _ _ (list_elem_of_here a l)).
           by destruct (decide (a ∈ l)).
        -- rewrite lookup_delete_ne by done.
           destruct (decide (k ∈ l)) as [Hk|Hk].
           ++ by rewrite decide_True by (by right).
           ++ rewrite decide_False; [done|].
              intros [?|?]%elem_of_cons; done.
      * exists (a :: new). split_and!.
        -- rewrite Hacc. by rewrite <- app_assoc.
        -- constructor; [|done]. rewrite Hin, lookup_delete_eq.
           intros [_ [? ?]]. done.
        -- intros k. rewrite elem_of_cons, Hin, elem_of_cons. split.
           ++ intros [->|[Hk Hs]]; [by auto|].
              destruct (decide (k = a)) as [->|Hne].
              ** rewrite lookup_delete_eq in Hs. by destruct Hs.
              ** rewrite lookup_delete_ne in Hs by done. auto.
           ++ intros [[->|Hk] Hs]; [by left|].
              destruct (decide (k = a)) as [->|Hne]; [by left|].
              right. by rewrite lookup_delete_ne.
    + apply eq_None_not_Some in Ha. rewrite remove_step_absent by done.
      destruct (IH m acc) as (Hm & new & Hacc & Hnd & Hin). split.
      * intros k. rewrite Hm. destruct (decide (k ∈ l)) as [Hk|Hk].
        -- by rewrite decide_True by (by right).
        -- destruct (decide (k ∈ a :: l)) as [[->|?]%elem_of_cons|_]; done.
      * exists new. split_and!; [done..|].
        intros k. rewrite Hin, elem_of_cons. split; [intros [Hk Hs]; by auto|].
        intros [[->|Hk] Hs]; [|done]. rewrite Ha in Hs. by destruct Hs.
Qed.

(** Removing keys that are all absent changes nothing and records nothing. *)
Lemma remove_all_absent (removals : list string) (m : gmap string string)
    (acc : list string) :
  (∀ k, k ∈ removals → m !! k = None) →
  foldl remove_step (m, acc) removals = (m, acc).
Proof.
  induction removals as [|a l IH]; intros Habs; simpl; [done|].
  rewrite remove_step_absent by (apply Habs; by left).
  apply IH. intros k Hk. apply Habs. by right.
Qed.

Lemma update_step_changed (m : gmap string string) (acc : list string) (k v : string) :
  read m k ≠ v → update_step (m, acc) (k, v) = (<[k := v]> m, acc ++ [k]).
Proof. intros Hne. unfold update_step. simpl. by rewrite decide_True. Qed.

Lemma update_step_same (m : gmap string string) (acc : list string) (k v : string) :
  read m k = v → update_step (m, acc) (k, v) = (m, acc).
Proof. intros He. unfold update_step. simpl. by rewrite decide_False by auto. Qed.

(** The update loop over entries with distinct keys: each entry is compared
    with what the map held before the loop. *)
Lemma update_all_spec (es : list (string * string)) (m : gmap string string)
    (acc : list string) :
  NoDup es.*1 →
  let r := foldl update_step (m, acc) es in
  (∀ k, r.1 !! k =
        match (list_to_map es : gmap string string) !! k with
        | Some v => if decide (read m k ≠ v) then Some v else m !! k
        | None => m !! k
        end)
  ∧ r.2 = acc ++ (filter (λ kv, read m kv.1 ≠ kv.2) es).*1.
Proof.
  revert m acc. induction es as [|[k0 v0] es IH]; intros m acc Hnd; simpl.
  - split; [intros k; by rewrite lookup_empty|by rewrite app_nil_r].
  - apply NoDup_cons in Hnd as [Hk0 Hnd].
    assert (Hfresh : (list_to_map es : gmap string string) !! k0 = None)
      by by apply not_elem_of_list_to_map_1.
    assert (Hsame : ∀ (m1 : gmap string string),
               (∀ k, k ≠ k0 → m1 !! k = m !! k) →
               filter (λ kv, read m1 kv.1 ≠ kv.2) es
               = filter (λ kv, read m kv.1 ≠ kv.2) es).
    { intros m1 Hm1. apply filter_ext_elem. intros [k v] Hkv. simpl.
      unfold read. rewrite Hm1; [done|].
      intros ->. apply Hk0. apply list_elem_of_fmap. by exists (k0, v). }
    rewrite filter_cons. simpl.
    destruct (decide (read m k0 ≠ v0)) as [Hne|He].
    + rewrite update_step_changed by done.
      destruct (IH (<[k0 := v0]> m) (acc ++ [k0]) Hnd) as [Hm Hacc]. split.
      * intros k. rewrite Hm. destruct (decide (k = k0)) as [->|Hk].
        -- by rewrite Hfresh, !lookup_insert_eq, decide_True.
        -- unfold read. by rewrite !(lookup_insert_ne _ k0 k) by done.
      * rewrite Hacc, Hsame by (intros k Hk; by rewrite lookup_insert_ne).
        by rewrite <- app_assoc.
    + apply dec_stable in He. rewrite update_step_same by done.
      destruct (IH m acc Hnd) as [Hm Hacc]. split; [|done].
      intros k. rewrite Hm. destruct (decide (k = k0)) as [->|Hk].
      * by rewrite Hfresh, lookup_insert_eq, decide_False by auto.
      * by rewrite lookup_insert_ne.
Qed.

(** Entries that the map already reads as leave it alone. *)
Lemma update_all_same (es : list (string * string)) (m : gmap string string)
    (acc : list string) :
  (∀ k v, (k, v) ∈ es → read m k = v) →
  foldl update_step (m, acc) es = (m, acc).
Proof.
  induction es as [|[k0 v0] es IH]; intros Hsame; simpl; [done|].
  rewrite update_step_same by (apply Hsame; by left).
  apply IH. intros k v Hkv. apply Hsame. by right.
Qed.

(** An admissible order lists the entries of the map, each key once. *)
Lemma admissible_NoDup (ro : range_order) (U : gmap string string) :
  admissible ro → NoDup (ro U).*1.
Proof.
  intros Hro. rewrite (Hro U). apply NoDup_fst_map_to_list.
Qed.

Lemma admissible_elem (ro : range_order) (U : gmap string string) (k v : string) :
  admissible ro → (k, v) ∈ ro U ↔ U !! k = Some v.
Proof. intros Hro. rewrite (Hro U). apply elem_of_map_to_list. Qed.

Lemma admissible_list_to_map (ro : range_order) (U : gmap string string) :
  admissible ro → list_to_map (ro U) = U.
Proof.
  intros Hro. rewrite <- (list_to_map_to_list U) at 2.
  apply list_to_map_proper; [by apply admissible_NoDup|apply Hro].
Qed.

(** ** The loops on the heap *)

Lemma for_range_cons {A S} (x : A) (l : list A) (body : S → A → M S) (s : S) (h : heap) :
  for_range (x :: l) body s h
  = match body s x h with
    | Done s' h' => for_range l body s' h'
    | Panic h' => Panic h'
    end.
Proof. reflexivity. Qed.

Lemma overlap_body_spec (updates : Properties) (overlap : list string) (key : string)
    (h : heap) :
  overlap_body updates overlap key h
  = Done (if decide (is_Some (contents h updates !! key))
          then overlap ++ [key] else overlap) h.
Proof.
  unfold overlap_body, bind, map_get, ret.
  destruct (contents h updates !! key) as [v|]; simpl; [done|].
  destruct (decide (is_Some (@None string))) as [[? ?]|_]; done.
Qed.

Lemma removal_body_nil (removed : list string) (key : string) (h : heap) :
  removal_body nil_map removed key h = Done removed h.
Proof.
  unfold removal_body, bind, map_get, ret. simpl. by rewrite lookup_empty.
Qed.

Lemma removal_body_ref (l' : loc) (removed : list string) (key : string) (h : heap)
    (m : gmap string string) :
  h !! l' = Some m →
  removal_body (ref l') removed key h
  = Done (remove_step (m, removed) key).2 (<[l' := (remove_step (m, removed) key).1]> h).
Proof.
  intros Hl. unfold removal_body, bind, map_get, map_delete, ret. simpl.
  rewrite Hl. simpl. destruct (m !! key) as [v|] eqn:Hk; rewrite ?Hl; simpl.
  - by rewrite remove_step_present by (by eexists).
  - rewrite remove_step_absent by done. simpl. by rewrite insert_id.
Qed.

Lemma update_body_nil (updated : list string) (k v : string) (h : heap) :
  update_body nil_map updated (k, v) h
  = if decide (v = "") then Done updated h else Panic h.
Proof.
  unfold update_body, bind, map_get, map_set, ret. simpl. rewrite lookup_empty.
  destruct (decide ("" ≠ v)) as [Hne|He].
  - by rewrite decide_False by auto.
  - apply dec_stable in He. by rewrite decide_True by auto.
Qed.

Lemma update_body_ref (l' : loc) (updated : list string) (k v : string) (h : heap)
    (m : gmap string string) :
  h !! l' = Some m →
  update_body (ref l') updated (k, v) h
  = Done (update_step (m, updated) (k, v)).2
         (<[l' := (update_step (m, updated) (k, v)).1]> h).
Proof.
  intros Hl. unfold update_body, bind, map_get, map_set, ret. simpl.
  rewrite Hl. simpl.
  assert (Hread : (match m !! k with Some v0 => (v0, true) | None => ("", false) end).1
                  = read m k) by (unfold read; by destruct (m !! k)).
  destruct (match m !! k with Some v0 => (v0, true) | None => ("", false) end)
    as [cur ok].
  simpl in Hread. subst cur.
  destruct (decide (read m k ≠ v)) as [Hne|He]; rewrite ?Hl; simpl.
  - by rewrite update_step_changed by done.
  - apply dec_stable in He. rewrite update_step_same by done. simpl.
    by rewrite insert_id.
Qed.

Lemma overlap_loop (updates : Properties) (removals acc : list string) (h : heap) :
  for_range removals (overlap_body updates) acc h
  = Done (acc ++ overlap_keys (contents h updates) removals) h.
Proof.
  revert acc. induction removals as [|a l IH]; intros acc.
  - simpl. unfold ret. by rewrite app_nil_r.
  - rewrite for_range_cons, overlap_body_spec, IH.
    unfold overlap_keys. rewrite filter_cons.
    destruct (decide _); [by rewrite <- app_assoc|done].
Qed.

Lemma checkForOverlap_spec (removals : list string) (updates : Properties) (h : heap) :
  checkForOverlap removals updates h
  = Done (match overlap_keys (contents h updates) removals with
          | [] => None
          | o => Some (conflict_message o)
          end) h.
Proof.
  unfold checkForOverlap, bind. rewrite overlap_loop. simpl.
  destruct (overlap_keys _ _) as [|k o]; [done|].
  rewrite decide_True; [done|]. unfold Slice.len. simpl. lia.
Qed.

Lemma removal_loop_nil (removals acc : list string) (h : heap) :
  for_range removals (removal_body nil_map) acc h = Done acc h.
Proof.
  revert acc. induction removals as [|a l IH]; intros acc; [done|].
  by rewrite for_range_cons, removal_body_nil.
Qed.

Lemma removal_loop_ref (l' : loc) (removals acc : list string) (h : heap)
    (m : gmap string string) :
  h !! l' = Some m →
  for_range removals (removal_body (ref l')) acc h
  = Done (foldl remove_step (m, acc) removals).2
         (<[l' := (foldl remove_step (m, acc) removals).1]> h).
Proof.
  revert acc h m. induction removals as [|a l IH]; intros acc h m Hl.
  - simpl. unfold ret. by rewrite insert_id.
  - rewrite for_range_cons, (removal_body_ref l' acc a h m Hl). simpl.
    destruct (remove_step (m, acc) a) as [m1 acc1]. simpl.
    rewrite (IH acc1 _ m1) by apply lookup_insert_eq.
    by rewrite insert_insert_eq.
Qed.

Lemma update_loop_nil_ok (es : list (string * string)) (acc : list string) (h : heap) :
  Forall (λ kv, kv.2 = "") es →
  for_range es (update_body nil_map) acc h = Done acc h.
Proof.
  induction 1 as [|[k v] es Hv _ IH]; [done|].
  rewrite for_range_cons, update_body_nil. simpl in Hv.
  by rewrite decide_True.
Qed.

Lemma update_loop_nil_panic (es : list (string * string)) (acc : list string) (h : heap) :
  Exists (λ kv, kv.2 ≠ "") es →
  for_range es (update_body nil_map) acc h = Panic h.
Proof.
  induction 1 as [[k v] es Hv|[k v] es _ IH];
    rewrite for_range_cons, update_body_nil.
  - simpl in Hv. by rewrite decide_False.
  - by destruct (decide (v = "")).
Qed.

Lemma update_loop_ref (l' : loc) (es : list (string * string)) (acc : list string)
    (h : heap) (m : gmap string string) :
  h !! l' = Some m →
  for_range es (update_body (ref l')) acc h
  = Done (foldl update_step (m, acc) es).2
         (<[l' := (foldl update_step (m, acc) es).1]> h).
Proof.
  revert acc h m. induction es as [|[k v] es IH]; intros acc h m Hl.
  - simpl. unfold ret. by rewrite insert_id.
  - rewrite for_range_cons, (update_body_ref l' acc k v h m Hl). simpl.
    destruct (update_step (m, acc) (k, v)) as [m1 acc1]. simpl.
    rewrite (IH acc1 _ m1) by apply lookup_insert_eq.
    by rewrite insert_insert_eq.
Qed.

(** ** The reconciler as a whole *)

Lemma overlap_keys_nil (U : gmap string string) (removals : list string) :
  overlap_keys U removals = [] ↔ no_overlap U removals.
Proof.
  unfold overlap_keys, no_overlap. split.
  - intros Hnil k Hk. apply eq_None_not_Some. intros Hs.
    assert (Hin : k ∈ filter (λ k, is_Some (U !! k)) removals)
      by by apply list_elem_of_filter.
    rewrite Hnil in Hin. by apply elem_of_nil in Hin.
  - induction removals as [|a l IH]; intros Hno; [done|].
    rewrite filter_cons, decide_False.
    + apply IH. intros k Hk. apply Hno. by right.
    + rewrite (Hno a) by (by left). by intros [? ?].
Qed.

Lemma fresh_not_allocated (h : heap) : h !! fresh (dom h) = None.
Proof. apply not_elem_of_dom. apply is_fresh. Qed.

Lemma contents_insert_valid (h : heap) (m : Properties) (l' : loc)
    (x : gmap string string) :
  valid h m → h !! l' = None → contents (<[l' := x]> h) m = contents h m.
Proof.
  destruct m as [|l]; [done|]. simpl. intros [y Hy] Hl'.
  rewrite lookup_insert_ne; [done|]. intros ->. by rewrite Hl' in Hy.
Qed.

(** With a conflict the call returns the error and nothing else happens. *)
Lemma reconcile_conflict (ro : range_order) (h : heap) (cur : Properties)
    (removals : list string) (updates : Properties) :
  overlap_keys (contents h updates) removals ≠ [] →
  getUpdatedPropsAndUpdateSummary ro cur removals updates h
  = Done (nil_map, summary_zero,
          Some (conflict_message (overlap_keys (contents h updates) removals))) h.
Proof.
  intros Hov. unfold getUpdatedPropsAndUpdateSummary, bind.
  rewrite checkForOverlap_spec.
  by destruct (overlap_keys (contents h updates) removals).
Qed.

(** Without a conflict and with a nil current map, the call panics as soon
    as one visited entry has a value other than the empty string. *)
Lemma reconcile_nil (ro : range_order) (h : heap) (removals : list string)
    (updates : Properties) :
  overlap_keys (contents h updates) removals = [] →
  getUpdatedPropsAndUpdateSummary ro nil_map removals updates h
  = if decide (Forall (λ kv, kv.2 = "") (ro (contents h updates)))
    then Done (nil_map, mk_summary [] [] (Difference removals []), None) h
    else Panic h.
Proof.
  intros Hov. unfold getUpdatedPropsAndUpdateSummary, bind.
  rewrite checkForOverlap_spec, Hov. simpl.
  rewrite removal_loop_nil. unfold map_range.
  destruct (decide _) as [Hall|Hex].
  - by rewrite update_loop_nil_ok.
  - rewrite update_loop_nil_panic; [done|].
    apply not_Forall_Exists in Hex; [|apply _].
    eapply Exists_impl; [apply Hex|]. intros kv Hkv. exact Hkv.
Qed.

(** Without a conflict and with a current map object, the call makes one new
    object, runs both loops on it and returns it. *)
Lemma reconcile_ref_gen (ro : range_order) (h : heap) (l : loc)
    (removals : list string) (updates : Properties) :
  overlap_keys (contents h updates) removals = [] →
  let l' := fresh (dom h) in
  let r1 := foldl remove_step (contents h (ref l), []) removals in
  let r2 := foldl update_step (r1.1, []) (ro (contents (<[l' := r1.1]> h) updates)) in
  getUpdatedPropsAndUpdateSummary ro (ref l) removals updates h
  = Done (ref l', mk_summary r1.2 r2.2 (Difference removals r1.2), None)
         (<[l' := r2.1]> h).
Proof.
  intros Hov l' r1 r2. unfold getUpdatedPropsAndUpdateSummary, bind.
  rewrite checkForOverlap_spec, Hov. cbn [maps_Clone].
  rewrite (removal_loop_ref (fresh (dom h)) removals [] _ (contents h (ref l)))
    by apply lookup_insert_eq.
  rewrite insert_insert_eq. fold l' r1. unfold map_range.
  rewrite (update_loop_ref l' _ [] _ r1.1) by apply lookup_insert_eq.
  rewrite insert_insert_eq. done.
Qed.

Lemma reconcile_ref (ro : range_order) (h : heap) (l : loc)
    (removals : list string) (updates : Properties) :
  overlap_keys (contents h updates) removals = [] →
  valid h updates →
  let l' := fresh (dom h) in
  let r1 := foldl remove_step (contents h (ref l), []) removals in
  let r2 := foldl update_step (r1.1, []) (ro (contents h updates)) in
  getUpdatedPropsAndUpdateSummary ro (ref l) removals updates h
  = Done (ref l', mk_summary r1.2 r2.2 (Difference removals r1.2), None)
         (<[l' := r2.1]> h).
Proof.
  intros Hov Hvalid l' r1 r2.
  rewrite (reconcile_ref_gen ro h l removals updates Hov). cbv zeta.
  by rewrite (contents_insert_valid h updates _ _ Hvalid (fresh_not_allocated h)).
Qed.

(** ** Conflicts *)

Lemma string_app_assoc (a b c : string) : (a +:+ b) +:+ c = a +:+ (b +:+ c).
Proof.
  induction a as [|x a IH]; [done|].
  change (String x ((a +:+ b) +:+ c) = String x (a +:+ (b +:+ c))).
  by rewrite IH.
Qed.

Lemma string_app_nil_r (a : string) : a +:+ "" = a.
Proof.
  induction a as [|x a IH]; [done|].
  change (String x (a +:+ "") = String x a). by rewrite IH.
Qed.

Lemma contains_app_l (p s k : string) :
  Strings.contains s k → Strings.contains (p +:+ s) k.
Proof.
  intros (pre & post & ->). exists (p +:+ pre), post.
  by rewrite string_app_assoc.
Qed.

Lemma contains_app_r (s q k : string) :
  Strings.contains s k → Strings.contains (s +:+ q) k.
Proof.
  intros (pre & post & ->). exists pre, (post +:+ q).
  by rewrite !string_app_assoc.
Qed.

Lemma contains_self (k : string) : Strings.contains k k.
Proof. exists "", "". simpl. by rewrite string_app_nil_r. Qed.

(** Every element of a slice is printed by [%v]. *)
Lemma fmt_elems_contains (l : list string) (k : string) :
  k ∈ l → Strings.contains (Strings.fmt_elems l) k.
Proof.
  induction l as [|x l IH]; intros Hk; [by apply elem_of_nil in Hk|].
  apply elem_of_cons in Hk as [->|Hk].
  - destruct l as [|y l]; [apply contains_self|].
    change (Strings.fmt_elems (x :: y :: l))
      with (x +:+ " " +:+ Strings.fmt_elems (y :: l)).
    apply contains_app_r, contains_self.
  - destruct l as [|y l]; [by apply elem_of_nil in Hk|].
    change (Strings.fmt_elems (x :: y :: l))
      with (x +:+ " " +:+ Strings.fmt_elems (y :: l)).
    by apply contains_app_l, contains_app_l, IH.
Qed.

Lemma conflict_message_contains (overlap : list string) (k : string) :
  k ∈ overlap → Strings.contains (conflict_message overlap) k.
Proof.
  intros Hk. unfold conflict_message, Strings.fmt_v.
  by apply contains_app_l, contains_app_l, contains_app_r, fmt_elems_contains.
Qed.

(** C2: when some requested removal is a key of the update map, the call
    returns a nil map, an empty summary and an error whose message prints
    every such key, and it leaves the heap as it found it (so the current
    map keeps its entries and no new map object exists); when no removal is
    a key of the update map, a call that returns returns no error. *)
Theorem conflict_reported (ro : range_order) (h : heap) (cur : Properties)
    (removals : list string) (updates : Properties) :
  let U := contents h updates in
  let out := getUpdatedPropsAndUpdateSummary ro cur removals updates h in
  ((∃ k, k ∈ removals ∧ is_Some (U !! k)) →
   ∃ msg,
     out = Done (nil_map, summary_zero, Some msg) h
     ∧ msg = "conflict between removals and updates for keys: "
             +:+ Strings.fmt_v (overlap_keys U removals)
     ∧ ∀ k, k ∈ removals → is_Some (U !! k) →
            k ∈ overlap_keys U removals ∧ Strings.contains msg k)
  ∧ (no_overlap U removals →
     ∀ P s e h', out = Done (P, s, e) h' → e = None).
Proof.
  intros U out. split.
  - intros (k0 & Hk0 & Hs0).
    assert (Hin : ∀ k, k ∈ removals → is_Some (U !! k) → k ∈ overlap_keys U removals).
    { intros k Hk Hs. by apply list_elem_of_filter. }
    exists (conflict_message (overlap_keys U removals)). split_and!.
    + apply reconcile_conflict. intros Hnil. specialize (Hin k0 Hk0 Hs0).
      fold U in Hnil. rewrite Hnil in Hin. by apply elem_of_nil in Hin.
    + done.
    + intros k Hk Hs. split; [by apply Hin|].
      by apply conflict_message_contains, Hin.
  - intros Hno%overlap_keys_nil P s e h' Hout. subst out U.
    destruct cur as [|l].
    + rewrite (reconcile_nil _ _ _ _ Hno) in Hout.
      destruct (decide _); by inversion Hout.
    + rewrite (reconcile_ref_gen _ _ _ _ _ Hno) in Hout. by inversion Hout.
Qed.

(** ** The frame *)


(** ** The summary *)

Lemma elem_of_Difference (a b : list string) (k : string) :
  k ∈ Difference a b ↔ k ∈ a ∧ k ∉ b.
Proof. unfold Difference. rewrite list_elem_of_filter. tauto. Qed.

Lemma Difference_nil_r (a : list string) : Difference a [] = a.
Proof.
  unfold Difference. induction a as [|x a IH]; [done|].
  rewrite filter_cons, decide_True by apply not_elem_of_nil. by rewrite IH.
Qed.

(** What a returning call without conflict puts into [Removed] and
    [Missing]. *)
Lemma reconcile_summary (ro : range_order) (h : heap) (cur : Properties)
    (removals : list string) (updates : Properties)
    (P : Properties) (s : PropertiesUpdateSummary) (e : error) (h' : heap) :
  no_overlap (contents h updates) removals →
  getUpdatedPropsAndUpdateSummary ro cur removals updates h = Done (P, s, e) h' →
  e = None
  ∧ Missing s = Difference removals (Removed s)
  ∧ NoDup (Removed s)
  ∧ ∀ k, k ∈ Removed s ↔ k ∈ removals ∧ is_Some (contents h cur !! k).
Proof.
  intros Hno%overlap_keys_nil Hout. destruct cur as [|l].
  - rewrite (reconcile_nil _ _ _ _ Hno) in Hout.
    destruct (decide _); inversion Hout; subst; simpl.
    split_and!; [done|done|constructor|].
    intros k. rewrite lookup_empty. split; [by intros ?%elem_of_nil|].
    intros [_ [? ?]]. done.
  - rewrite (reconcile_ref_gen _ _ _ _ _ Hno) in Hout.
    inversion Hout; subst; simpl.
    destruct (remove_all_spec removals (default ∅ (h !! l)) [])
      as (_ & new & Hacc & Hnd & Hin).
    simpl in Hacc. rewrite Hacc. split_and!; done.
Qed.

(** C3: after a call without conflict that returns, [Removed] holds, once
    each, exactly the requested removals that were keys of the current map;
    [Missing] is the removal request without the keys of [Removed], that is
    the requested removals that were not keys of the current map; no key is
    in both lists, and every requested removal is in exactly one of them. *)
Theorem removed_missing_partition (ro : range_order) (h : heap) (cur : Properties)
    (removals : list string) (updates : Properties)
    (P : Properties) (s : PropertiesUpdateSummary) (e : error) (h' : heap) :
  no_overlap (contents h updates) removals →
  getUpdatedPropsAndUpdateSummary ro cur removals updates h = Done (P, s, e) h' →
  e = None
  ∧ (∀ k, k ∈ Removed s ↔ k ∈ removals ∧ is_Some (contents h cur !! k))
  ∧ NoDup (Removed s)
  ∧ Missing s = Difference removals (Removed s)
  ∧ (∀ k, k ∈ Missing s ↔ k ∈ removals ∧ k ∉ Removed s)
  ∧ (∀ k, k ∈ Missing s ↔ k ∈ removals ∧ contents h cur !! k = None)
  ∧ (∀ k, ¬ (k ∈ Removed s ∧ k ∈ Missing s))
  ∧ (∀ k, k ∈ removals →
          (k ∈ Removed s ∧ k ∉ Missing s) ∨ ((k ∉ Removed s) ∧ k ∈ Missing s)).
Proof.
  intros Hno Hout.
  destruct (reconcile_summary _ _ _ _ _ _ _ _ _ Hno Hout) as (He & Hmiss & Hnd & Hrem).
  assert (Hm : ∀ k, k ∈ Missing s ↔ k ∈ removals ∧ k ∉ Removed s).
  { intros k. rewrite Hmiss. apply elem_of_Difference. }
  split_and!; try done.
  - intros k. rewrite Hm, Hrem. split.
    + intros [Hk Hnot]. split; [done|]. apply eq_None_not_Some. auto.
    + intros [Hk Hnone]. split; [done|]. intros [_ Hs].
      rewrite Hnone in Hs. by destruct Hs.
  - intros k [Hr Hmk]. apply Hm in Hmk as [_ Hnot]. done.
  - intros k Hk. destruct (decide (k ∈ Removed s)) as [Hr|Hr].
    + left. split; [done|]. rewrite Hm. tauto.
    + right. split; [done|]. by apply Hm.
Qed.

Lemma removed_missing_partition_witness :
  ∃ s, Removed s = ["b"] ∧ Missing s = ["c"]
       ∧ ∀ k, k ∈ ["b"; "c"] →
              (k ∈ Removed s ∧ k ∉ Missing s) ∨ ((k ∉ Removed s) ∧ k ∈ Missing s).
Proof.
  exists (mk_summary ["b"] ["d"] ["c"]). split; [reflexivity|]. split; [reflexivity|].
  refine (proj2 (proj2 (proj2 (proj2 (proj2 (proj2 (proj2
    (removed_missing_partition map_to_list Sample.heap0 (ref 1%positive)
       ["b"; "c"] (ref 2%positive) (ref 3%positive)
       (mk_summary ["b"] ["d"] ["c"]) None
       (<[3%positive := {[ "a" := "1"; "d" := "4" ]}]> Sample.heap0) _ _)))))))).
  - intros k Hk. apply elem_of_cons in Hk as [->|Hk]; [reflexivity|].
    apply elem_of_cons in Hk as [->|Hk]; [reflexivity|].
    by apply elem_of_nil in Hk.
  - vm_compute. reflexivity.
Defined.

(** ** Updates *)

(** The update loop in an admissible order, in terms of the update map. *)
Lemma update_all_admissible (ro : range_order) (U m : gmap string string)
    (acc : list string) :
  admissible ro →
  let r := foldl update_step (m, acc) (ro U) in
  (∀ k, r.1 !! k =
        match U !! k with
        | Some v => if decide (read m k ≠ v) then Some v else m !! k
        | None => m !! k
        end)
  ∧ (∀ k, k ∈ r.2 ↔ k ∈ acc ∨ ∃ v, U !! k = Some v ∧ read m k ≠ v).
Proof.
  intros Hro r.
  destruct (update_all_spec (ro U) m acc (admissible_NoDup ro U Hro)) as [Hm Hacc].
  fold r in Hm, Hacc. rewrite (admissible_list_to_map ro U Hro) in Hm.
  split; [done|]. intros k. rewrite Hacc, elem_of_app, list_elem_of_fmap.
  split; (intros [Hk|Hk]; [by left|right]).
  - destruct Hk as ([k' v] & -> & [Hne Hin]%list_elem_of_filter). simpl in *.
    exists v. split; [|done]. by apply (admissible_elem ro U k' v Hro).
  - destruct Hk as (v & Hv & Hne). exists (k, v). split; [done|].
    apply list_elem_of_filter. split; [done|].
    by apply (admissible_elem ro U k v Hro).
Qed.

(** After the update loop every entry of the update map reads back. *)
Lemma update_all_reads_back (ro : range_order) (U m : gmap string string)
    (acc : list string) (k v : string) :
  admissible ro → U !! k = Some v →
  read (foldl update_step (m, acc) (ro U)).1 k = v.
Proof.
  intros Hro Hk.
  destruct (update_all_admissible ro U m acc Hro) as [Hm _].
  unfold read at 1. rewrite Hm, Hk.
  destruct (decide (read m k ≠ v)) as [Hne|He]; [done|].
  by apply dec_stable in He.
Qed.

Lemma contents_insert_eq (h : heap) (l : loc) (x : gmap string string) :
  contents (<[l := x]> h) (ref l) = x.
Proof. simpl. by rewrite lookup_insert_eq. Qed.

Lemma valid_insert (h : heap) (m : Properties) (l' : loc) (x : gmap string string) :
  valid h m → valid (<[l' := x]> h) m.
Proof.
  destruct m as [|l]; [done|]. simpl. intros Hl.
  destruct (decide (l' = l)) as [->|Hne].
  - rewrite lookup_insert_eq. by eexists.
  - by rewrite lookup_insert_ne.
Qed.

(** What a call on a current map object returns, entry by entry. *)
Lemma reconcile_ref_entries (ro : range_order) (h : heap) (l : loc)
    (removals : list string) (updates : Properties) :
  admissible ro →
  valid h updates →
  no_overlap (contents h updates) removals →
  let U := contents h updates in
  let C := contents h (ref l) in
  let P := ref (fresh (dom h)) in
  ∃ s h',
    getUpdatedPropsAndUpdateSummary ro (ref l) removals updates h
    = Done (P, s, None) h'
    ∧ (∀ k v, U !! k = Some v →
              contents h' P !! k = (if decide (read C k ≠ v) then Some v else C !! k))
    ∧ (∀ k, U !! k = None →
            contents h' P !! k = (if decide (k ∈ removals) then None else C !! k))
    ∧ (∀ k, k ∈ Updated s ↔ ∃ v, U !! k = Some v ∧ read C k ≠ v).
Proof.
  intros Hro Hvalid Hno U C P.
  pose proof (proj2 (overlap_keys_nil _ _) Hno) as Hov.
  eexists _, _. split; [by apply reconcile_ref|].
  unfold P. rewrite contents_insert_eq. cbn [Updated].
  set (r1 := foldl remove_step (contents h (ref l), []) removals).
  destruct (remove_all_spec removals (contents h (ref l)) []) as [Hm1 _].
  fold r1 in Hm1.
  destruct (update_all_admissible ro (contents h updates) r1.1 [] Hro) as [Hm2 Hacc].
  assert (Hkeep : ∀ k v, U !! k = Some v → r1.1 !! k = C !! k).
  { intros k v Hk. rewrite Hm1. rewrite decide_False; [done|].
    intros Hin. specialize (Hno k Hin). fold U in Hno. by rewrite Hno in Hk. }
  assert (Hread : ∀ k v, U !! k = Some v → read r1.1 k = read C k).
  { intros k v Hk. unfold read. by rewrite (Hkeep k v Hk). }
  split_and!.
  - intros k v Hk. rewrite Hm2. fold U. rewrite Hk.
    by rewrite (Hread k v Hk), (Hkeep k v Hk).
  - intros k Hk. rewrite Hm2. fold U. by rewrite Hk, Hm1.
  - intros k. rewrite Hacc. split.
    + intros [Hk|(v & Hk & Hne)]; [by apply elem_of_nil in Hk|].
      exists v. split; [done|]. by rewrite <- (Hread k v Hk).
    + intros (v & Hk & Hne). right. exists v. split; [done|].
      by rewrite (Hread k v Hk).
Qed.

(** X1: the behaviour of an upsert on a current map object, case by case:
    a key whose current value differs, or that is absent while the value is
    not the empty string, is set and recorded; a key that holds the value
    already is neither touched nor recorded. *)
Lemma upsert_cases (ro : range_order) (h : heap) (l : loc)
    (removals : list string) (updates : Properties) (k v : string) :
  admissible ro →
  valid h updates →
  no_overlap (contents h updates) removals →
  contents h updates !! k = Some v →
  let C := contents h (ref l) in
  let P := ref (fresh (dom h)) in
  ∃ s h',
    getUpdatedPropsAndUpdateSummary ro (ref l) removals updates h
    = Done (P, s, None) h'
    ∧ (∀ w, C !! k = Some w → w ≠ v → contents h' P !! k = Some v ∧ k ∈ Updated s)
    ∧ (C !! k = None → v ≠ "" → contents h' P !! k = Some v ∧ k ∈ Updated s)
    ∧ (C !! k = Some v → contents h' P !! k = Some v ∧ k ∉ Updated s).
Proof.
  intros Hro Hvalid Hno Hk C P.
  destruct (reconcile_ref_entries ro h l removals updates Hro Hvalid Hno)
    as (s & h' & Hout & Hset & _ & Hupd).
  exists s, h'. split; [done|]. fold C P in Hset, Hupd.
  specialize (Hset k v Hk). split_and!.
  - intros w Hw Hne. assert (Hr : read C k ≠ v) by (unfold read; by rewrite Hw).
    split; [by rewrite Hset, decide_True|]. apply Hupd. by exists v.
  - intros Hnone Hne. assert (Hr : read C k ≠ v) by (unfold read; by rewrite Hnone).
    split; [by rewrite Hset, decide_True|]. apply Hupd. by exists v.
  - intros Hsame. assert (Hr : read C k = v) by (unfold read; by rewrite Hsame).
    split; [by rewrite Hset, decide_False by auto|].
    rewrite Hupd. intros (v' & Hk' & Hne). rewrite Hk in Hk'. by inversion Hk'; subst.
Qed.

(** C1: the update loop compares [updatedProps[key]] with the value, and an
    absent key reads as the empty string.  So an update that gives the
    empty string to a key absent from the current map is dropped: the call
    returns, the key is still absent from the returned map, and [Updated]
    does not record it. *)
Theorem empty_value_upsert_dropped (ro : range_order) (h : heap) (l : loc)
    (removals : list string) (updates : Properties) (k : string) :
  admissible ro →
  valid h updates →
  no_overlap (contents h updates) removals →
  contents h updates !! k = Some "" →
  contents h (ref l) !! k = None →
  ∃ s h',
    getUpdatedPropsAndUpdateSummary ro (ref l) removals updates h
    = Done (ref (fresh (dom h)), s, None) h'
    ∧ contents h' (ref (fresh (dom h))) !! k = None
    ∧ k ∉ Updated s.
Proof.
  intros Hro Hvalid Hno Hk Hnone.
  destruct (reconcile_ref_entries ro h l removals updates Hro Hvalid Hno)
    as (s & h' & Hout & Hset & _ & Hupd).
  exists s, h'. split; [done|].
  assert (Hr : read (contents h (ref l)) k = "") by (unfold read; by rewrite Hnone).
  split.
  - by rewrite (Hset k "" Hk), decide_False by auto.
  - rewrite Hupd. intros (v' & Hk' & Hne). rewrite Hk in Hk'. by inversion Hk'; subst.
Qed.

Lemma admissible_map_to_list : admissible map_to_list.
Proof. intros m. reflexivity. Defined.

Lemma empty_value_upsert_dropped_witness :
  ∃ s h',
    getUpdatedPropsAndUpdateSummary map_to_list (ref 1%positive) [] (ref 2%positive)
      Sample.heap1
    = Done (ref (fresh (dom Sample.heap1)), s, None) h'
    ∧ contents h' (ref (fresh (dom Sample.heap1))) !! "k" = None
    ∧ "k" ∉ Updated s.
Proof.
  apply (empty_value_upsert_dropped map_to_list Sample.heap1 1%positive []
           (ref 2%positive) "k").
  - exact admissible_map_to_list.
  - vm_compute. eexists. reflexivity.
  - intros k Hk. by apply elem_of_nil in Hk.
  - vm_compute. reflexivity.
  - vm_compute. reflexivity.
Defined.

(** ** Idempotence *)

Lemma remove_dups_NoDup (l : list string) : NoDup l → remove_dups l = l.
Proof.
  induction 1 as [|x l Hx _ IH]; [done|]. simpl.
  destruct (decide_rel elem_of x l); [done|by rewrite IH].
Qed.

(** A key requested twice for removal is twice in [Missing] on the second
    call: [Missing] is then the request as given, not the request without
    its duplicates.  Hence the wording of C4 below. *)
Lemma idempotent_missing_keeps_duplicates :
  getUpdatedPropsAndUpdateSummary map_to_list (ref 1%positive) ["b"; "b"; "c"]
    nil_map Sample.heap2
  = Done (ref 2%positive, mk_summary ["b"] [] ["c"], None)
         (<[2%positive := ∅]> Sample.heap2)
  ∧ getUpdatedPropsAndUpdateSummary map_to_list (ref 2%positive) ["b"; "b"; "c"]
      nil_map (<[2%positive := ∅]> Sample.heap2)
    = Done (ref 3%positive, mk_summary [] [] ["b"; "b"; "c"], None)
           (<[3%positive := ∅]> (<[2%positive := ∅]> Sample.heap2))
  ∧ remove_dups ["b"; "b"; "c"] = ["b"; "c"]
  ∧ ["b"; "b"; "c"] ≠ ["b"; "c"].
Proof. split_and!; [by vm_compute..|discriminate]. Qed.

(** C4, amended: when a call without conflict returns the map [P], a second
    call with the same removals and updates on [P] returns without error,
    with [Removed] and [Updated] empty and [Missing] equal to the removal
    request as given, duplicates included, which is the request without
    duplicates exactly when the request names no key twice; the map it
    returns holds the entries of [P], and [P] keeps them. *)
Theorem reconcile_idempotent (ro1 ro2 : range_order) (h : heap) (cur : Properties)
    (removals : list string) (updates : Properties)
    (P : Properties) (s1 : PropertiesUpdateSummary) (e1 : error) (h1 : heap) :
  admissible ro1 →
  admissible ro2 →
  valid h updates →
  no_overlap (contents h updates) removals →
  getUpdatedPropsAndUpdateSummary ro1 cur removals updates h = Done (P, s1, e1) h1 →
  ∃ P2 s2 h2,
    getUpdatedPropsAndUpdateSummary ro2 P removals updates h1 = Done (P2, s2, None) h2
    ∧ Removed s2 = []
    ∧ Updated s2 = []
    ∧ Missing s2 = removals
    ∧ (Missing s2 = remove_dups removals ↔ NoDup removals)
    ∧ contents h2 P2 = contents h1 P
    ∧ contents h2 P = contents h1 P.
Proof.
  intros Hro1 Hro2 Hvalid Hno Hout.
  pose proof (proj2 (overlap_keys_nil _ _) Hno) as Hov.
  assert (Hdups : ∀ miss, miss = removals →
            (miss = remove_dups removals ↔ NoDup removals)).
  { intros miss ->. split.
    - intros Heq. rewrite Heq. apply NoDup_remove_dups.
    - intros Hnd. symmetry. by apply remove_dups_NoDup. }
  destruct cur as [|l].
  - rewrite (reconcile_nil _ _ _ _ Hov) in Hout.
    destruct (decide _) as [Hall|_]; inversion Hout; subst. clear Hout.
    eexists _, _, _. rewrite (reconcile_nil _ _ _ _ Hov).
    rewrite decide_True.
    + rewrite Difference_nil_r. split_and!; try done. by apply Hdups.
    + apply Forall_forall. intros [k v] Hkv.
      apply (admissible_elem ro2 _ k v Hro2) in Hkv.
      apply (admissible_elem ro1 _ k v Hro1) in Hkv.
      by apply (proj1 (Forall_forall _ _) Hall) in Hkv.
  - rewrite (reconcile_ref _ _ _ _ _ Hov Hvalid) in Hout.
    inversion Hout; subst. clear Hout.
    set (l' := fresh (dom h)) in *.
    set (r1 := foldl remove_step (contents h (ref l), []) removals) in *.
    set (U := contents h updates) in *.
    set (m2 := (foldl update_step (r1.1, []) (ro1 U)).1).
    set (h1 := <[l' := m2]> h).
    assert (HU : contents h1 updates = U).
    { apply contents_insert_valid; [done|apply fresh_not_allocated]. }
    assert (Hvalid1 : valid h1 updates) by by apply valid_insert.
    assert (Hov1 : overlap_keys (contents h1 updates) removals = [])
      by by rewrite HU.
    assert (Hm2 : contents h1 (ref l') = m2) by apply contents_insert_eq.
    destruct (remove_all_spec removals (contents h (ref l)) []) as [Hr1 _].
    fold r1 in Hr1.
    destruct (update_all_admissible ro1 U r1.1 [] Hro1) as [Hr2 _].
    fold m2 in Hr2.
    assert (Habs : ∀ k, k ∈ removals → m2 !! k = None).
    { intros k Hk. rewrite Hr2, (Hno k Hk), Hr1. by rewrite decide_True. }
    assert (Hback : ∀ k v, (k, v) ∈ ro2 U → read m2 k = v).
    { intros k v Hkv%(admissible_elem ro2 U k v Hro2).
      by apply update_all_reads_back. }
    eexists _, _, _. rewrite (reconcile_ref _ _ _ _ _ Hov1 Hvalid1).
    rewrite HU, Hm2, (remove_all_absent removals m2 [] Habs).
    cbn [fst snd]. rewrite (update_all_same (ro2 U) m2 [] Hback).
    cbn [fst snd]. rewrite Difference_nil_r.
    split_and!; try done.
    + by apply Hdups.
    + by rewrite contents_insert_eq.
    + rewrite contents_insert_valid; [done| |apply fresh_not_allocated].
      simpl. unfold h1. rewrite lookup_insert_eq. by eexists.
Qed.

Lemma reconcile_idempotent_witness :
  ∃ P2 s2 h2,
    getUpdatedPropsAndUpdateSummary map_to_list (ref 3%positive) ["b"; "c"]
      (ref 2%positive) (<[3%positive := {[ "a" := "1"; "d" := "4" ]}]> Sample.heap0)
    = Done (P2, s2, None) h2
    ∧ Removed s2 = []
    ∧ Updated s2 = []
    ∧ Missing s2 = ["b"; "c"].
Proof.
  destruct (reconcile_idempotent map_to_list map_to_list Sample.heap0
              (ref 1%positive) ["b"; "c"] (ref 2%positive) (ref 3%positive)
              (mk_summary ["b"] ["d"] ["c"]) None
              (<[3%positive := {[ "a" := "1"; "d" := "4" ]}]> Sample.heap0))
    as (P2 & s2 & h2 & Hout & Hrem & Hupd & Hmiss & _).
  - exact admissible_map_to_list.
  - exact admissible_map_to_list.
  - vm_compute. eexists. reflexivity.
  - intros k Hk. apply elem_of_cons in Hk as [->|Hk]; [reflexivity|].
    apply elem_of_cons in Hk as [->|Hk]; [reflexivity|].
    by apply elem_of_nil in Hk.
  - vm_compute. reflexivity.
  - exists P2, s2, h2. auto.
Defined.

(** The example of the specification, visiting the updates in the order in
    which the map lists them. *)
Example reconcile_example :
  getUpdatedPropsAndUpdateSummary map_to_list (ref 1%positive) ["b"; "c"]
    (ref 2%positive) Sample.heap0
  = Done (ref 3%positive, mk_summary ["b"] ["d"] ["c"], None)
         (<[3%positive := {[ "a" := "1"; "d" := "4" ]}]> Sample.heap0).
Proof. by vm_compute. Qed.

(** ** A nil current map *)

(** With a nil current map and a conflict between removals and updates the
    call returns the conflict error: the check comes before the clone and
    the loops, so nothing is assigned and nothing panics, even though an
    update value is not the empty string.  With a current map object and
    the same removals and updates the call returns that error too.  Hence
    the condition on conflicts in C10 below. *)
Lemma nil_current_conflict_returns :
  contents Sample.heap0 (ref 2%positive) !! "d" = Some "4"
  ∧ "4" ≠ ""
  ∧ getUpdatedPropsAndUpdateSummary map_to_list nil_map ["d"] (ref 2%positive)
      Sample.heap0
    = Done (nil_map, summary_zero,
            Some "conflict between removals and updates for keys: [d]")
        Sample.heap0
  ∧ getUpdatedPropsAndUpdateSummary map_to_list (ref 1%positive) ["d"] (ref 2%positive)
      Sample.heap0
    = Done (nil_map, summary_zero,
            Some "conflict between removals and updates for keys: [d]")
        Sample.heap0.
Proof. split_and!; [by vm_compute|discriminate|by vm_compute..]. Qed.

(** C10, amended: when no removal is a key of the update map, the current
    map is nil and some update value is not the empty string, the call
    panics at the assignment into the nil clone, leaving the heap as it
    was; with a current map object in place of nil, empty or not, the call
    with the same removals and updates returns without error. *)
Theorem nil_current_panics (ro : range_order) (h : heap)
    (removals : list string) (updates : Properties) (k v : string) :
  admissible ro →
  no_overlap (contents h updates) removals →
  contents h updates !! k = Some v →
  v ≠ "" →
  getUpdatedPropsAndUpdateSummary ro nil_map removals updates h = Panic h
  ∧ ∀ l, ∃ P s h',
      getUpdatedPropsAndUpdateSummary ro (ref l) removals updates h
      = Done (P, s, None) h'.
Proof.
  intros Hro Hno%overlap_keys_nil Hk Hv. split.
  - rewrite (reconcile_nil _ _ _ _ Hno).
    destruct (decide _) as [Hall|_]; [|done].
    apply (admissible_elem ro _ k v Hro) in Hk.
    apply (proj1 (Forall_forall _ _) Hall) in Hk. done.
  - intros l. eexists _, _, _. by apply reconcile_ref_gen.
Qed.

Lemma nil_current_panics_witness :
  getUpdatedPropsAndUpdateSummary map_to_list nil_map ["b"; "c"] (ref 2%positive)
    Sample.heap0
  = Panic Sample.heap0
  ∧ ∀ l, ∃ P s h',
      getUpdatedPropsAndUpdateSummary map_to_list (ref l) ["b"; "c"] (ref 2%positive)
        Sample.heap0
      = Done (P, s, None) h'.
Proof.
  apply (nil_current_panics map_to_list Sample.heap0 ["b"; "c"] (ref 2%positive)
           "d" "4").
  - exact admissible_map_to_list.
  - intros k Hk. apply elem_of_cons in Hk as [->|Hk]; [reflexivity|].
    apply elem_of_cons in Hk as [->|Hk]; [reflexivity|].
    by apply elem_of_nil in Hk.
  - vm_compute. reflexivity.
  - discriminate.
Defined.

(** A nil current map does not panic when every update value is the empty
    string: no assignment is reached, and the call returns a nil map. *)
Lemma nil_current_returns (ro : range_order) (h : heap)
    (removals : list string) (updates : Properties) :
  admissible ro →
  no_overlap (contents h updates) removals →
  (∀ k v, contents h updates !! k = Some v → v = "") →
  getUpdatedPropsAndUpdateSummary ro nil_map removals updates h
  = Done (nil_map, mk_summary [] [] removals, None) h.
Proof.
  intros Hro Hno%overlap_keys_nil Hall.
  rewrite (reconcile_nil _ _ _ _ Hno), Difference_nil_r.
  rewrite decide_True; [done|]. apply Forall_forall. intros [k v] Hkv.
  apply (admissible_elem ro _ k v Hro) in Hkv. by apply (Hall k v).
Qed.

(** * Part III: further properties of the package *)

(** ** The reconciler, beyond the summary *)

Lemma no_overlap_sample : no_overlap (contents Sample.heap0 (ref 2%positive)) ["b"; "c"].
Proof.
  intros k Hk. apply elem_of_cons in Hk as [->|Hk]; [reflexivity|].
  apply elem_of_cons in Hk as [->|Hk]; [reflexivity|].
  by apply elem_of_nil in Hk.
Defined.

Lemma valid_sample : valid Sample.heap0 (ref 2%positive).
Proof. vm_compute. eexists. reflexivity. Defined.

Lemma upsert_cases_witness :
  ∃ s h',
    getUpdatedPropsAndUpdateSummary map_to_list (ref 1%positive) ["b"; "c"]
      (ref 2%positive) Sample.heap0
    = Done (ref (fresh (dom Sample.heap0)), s, None) h'
    ∧ (contents Sample.heap0 (ref 1%positive) !! "d" = None → "4" ≠ "" →
       contents h' (ref (fresh (dom Sample.heap0))) !! "d" = Some "4"
       ∧ "d" ∈ Updated s).
Proof.
  destruct (upsert_cases map_to_list Sample.heap0 1%positive ["b"; "c"]
              (ref 2%positive) "d" "4" admissible_map_to_list valid_sample
              no_overlap_sample eq_refl)
    as (s & h' & Hout & _ & Habsent & _).
  exists s, h'. split; [exact Hout|exact Habsent].
Defined.

(** X2: after a call without conflict on a current map object, every
    requested removal is absent from the returned map, and a key that is
    neither a requested removal nor a key of the update map holds in the
    returned map what it held in the current map (or is absent from both). *)
Theorem removed_absent_others_kept (ro : range_order) (h : heap) (l : loc)
    (removals : list string) (updates : Properties) :
  admissible ro →
  valid h updates →
  no_overlap (contents h updates) removals →
  ∃ s h',
    getUpdatedPropsAndUpdateSummary ro (ref l) removals updates h
    = Done (ref (fresh (dom h)), s, None) h'
    ∧ (∀ k, k ∈ removals → contents h' (ref (fresh (dom h))) !! k = None)
    ∧ (∀ k, k ∉ removals → contents h updates !! k = None →
            contents h' (ref (fresh (dom h))) !! k = contents h (ref l) !! k).
Proof.
  intros Hro Hvalid Hno.
  destruct (reconcile_ref_entries ro h l removals updates Hro Hvalid Hno)
    as (s & h' & Hout & _ & Hrest & _).
  exists s, h'. split; [done|]. split.
  - intros k Hk. rewrite (Hrest k (Hno k Hk)). by rewrite decide_True.
  - intros k Hk HU. rewrite (Hrest k HU). by rewrite decide_False.
Qed.

Lemma removed_absent_others_kept_witness :
  ∃ s h',
    getUpdatedPropsAndUpdateSummary map_to_list (ref 1%positive) ["b"; "c"]
      (ref 2%positive) Sample.heap0
    = Done (ref (fresh (dom Sample.heap0)), s, None) h'
    ∧ contents h' (ref (fresh (dom Sample.heap0))) !! "b" = None.
Proof.
  destruct (removed_absent_others_kept map_to_list Sample.heap0 1%positive
              ["b"; "c"] (ref 2%positive) admissible_map_to_list valid_sample
              no_overlap_sample)
    as (s & h' & Hout & Hgone & _).
  exists s, h'. split; [exact Hout|]. apply Hgone. by left.
Defined.

(** The keys the update loop records, for an admissible order: no key
    twice, and no more keys than the update map has entries. *)
Lemma update_all_recorded (ro : range_order) (U m : gmap string string) :
  admissible ro →
  NoDup (foldl update_step (m, []) (ro U)).2
  ∧ (length (foldl update_step (m, []) (ro U)).2 ≤ size U)%nat.
Proof.
  intros Hro.
  destruct (update_all_spec (ro U) m [] (admissible_NoDup ro U Hro)) as [_ Hacc].
  rewrite Hacc. simpl.
  assert (Hsub : (filter (λ kv, read m kv.1 ≠ kv.2) (ro U)).*1 `sublist_of` (ro U).*1).
  { apply fmap_sublist, sublist_filter. }
  split.
  - eapply sublist_NoDup; [|exact Hsub]. by apply admissible_NoDup.
  - etrans; [apply (sublist_length _ _ Hsub)|].
    rewrite length_fmap, (Hro U), length_map_to_list. done.
Qed.

(** X3: after a call without conflict that returns, the summary agrees with
    the returned map: every key of [Updated] is a key of the update map and
    holds its value there, every key of [Removed] is absent, [Updated]
    lists no key twice, and no key is both in [Updated] and in [Removed]. *)
Theorem summary_matches_map (ro : range_order) (h : heap) (cur : Properties)
    (removals : list string) (updates : Properties)
    (P : Properties) (s : PropertiesUpdateSummary) (e : error) (h' : heap) :
  admissible ro →
  valid h updates →
  no_overlap (contents h updates) removals →
  getUpdatedPropsAndUpdateSummary ro cur removals updates h = Done (P, s, e) h' →
  (∀ k, k ∈ Updated s →
        is_Some (contents h updates !! k)
        ∧ contents h' P !! k = contents h updates !! k)
  ∧ (∀ k, k ∈ Removed s → contents h' P !! k = None)
  ∧ NoDup (Updated s)
  ∧ (∀ k, ¬ (k ∈ Updated s ∧ k ∈ Removed s)).
Proof.
  intros Hro Hvalid Hno Hout.
  destruct (reconcile_summary _ _ _ _ _ _ _ _ _ Hno Hout) as (_ & _ & _ & Hrem).
  pose proof (proj2 (overlap_keys_nil _ _) Hno) as Hov.
  destruct cur as [|l].
  - rewrite (reconcile_nil _ _ _ _ Hov) in Hout.
    destruct (decide _); inversion Hout; subst; simpl.
    split_and!; [|done|constructor|].
    + intros k Hk. by apply elem_of_nil in Hk.
    + intros k [Hk _]. by apply elem_of_nil in Hk.
  - destruct (reconcile_ref_entries ro h l removals updates Hro Hvalid Hno)
      as (s0 & h0 & Hout0 & Hset & Hrest & Hupd).
    rewrite Hout0 in Hout. inversion Hout; subst. clear Hout.
    assert (Hin : ∀ k, k ∈ Updated s → is_Some (contents h updates !! k)).
    { intros k (v & Hk & _)%Hupd. by eexists. }
    split_and!.
    + intros k Hk. split; [by apply Hin|].
      apply Hupd in Hk as (v & Hk & Hne).
      by rewrite (Hset k v Hk), decide_True, Hk.
    + intros k [Hk _]%Hrem. rewrite (Hrest k (Hno k Hk)). by rewrite decide_True.
    + pose proof (reconcile_ref ro h l removals updates Hov Hvalid) as Heq.
      cbv zeta in Heq. rewrite Hout0 in Heq. inversion Heq as [[Hs Hh]].
      simpl. by apply update_all_recorded.
    + intros k [Hu [Hr _]%Hrem]. apply Hin in Hu as [v Hv].
      by rewrite (Hno k Hr) in Hv.
Qed.

Lemma summary_matches_map_witness :
  contents (<[3%positive := {[ "a" := "1"; "d" := "4" ]}]> Sample.heap0)
    (ref 3%positive) !! "d"
  = contents Sample.heap0 (ref 2%positive) !! "d".
Proof.
  refine (proj2 (proj1 (summary_matches_map map_to_list Sample.heap0
            (ref 1%positive) ["b"; "c"] (ref 2%positive) (ref 3%positive)
            (mk_summary ["b"] ["d"] ["c"]) None
            (<[3%positive := {[ "a" := "1"; "d" := "4" ]}]> Sample.heap0)
            admissible_map_to_list valid_sample no_overlap_sample _) "d" _)).
  - vm_compute. reflexivity.
  - simpl. by left.
Defined.

(** X4: the order in which the update map is visited shows in the order of
    [Updated] and nowhere else: two calls on the same heap with two
    admissible orders both panic, or both return, and then they return the
    same map, the same error, the same [Removed] and [Missing], the same
    heap, and two [Updated] lists that are permutations of each other. *)
Theorem iteration_order_irrelevant (ro1 ro2 : range_order) (h : heap)
    (cur : Properties) (removals : list string) (updates : Properties) :
  admissible ro1 →
  admissible ro2 →
  valid h updates →
  match getUpdatedPropsAndUpdateSummary ro1 cur removals updates h,
        getUpdatedPropsAndUpdateSummary ro2 cur removals updates h with
  | Done (P1, s1, e1) h1, Done (P2, s2, e2) h2 =>
      P1 = P2 ∧ e1 = e2 ∧ h1 = h2
      ∧ Removed s1 = Removed s2
      ∧ Missing s1 = Missing s2
      ∧ Updated s1 ≡ₚ Updated s2
  | Panic h1, Panic h2 => h1 = h2
  | _, _ => False
  end.
Proof.
  intros Hro1 Hro2 Hvalid.
  destruct (overlap_keys (contents h updates) removals) as [|k0 o] eqn:Hov.
  - destruct cur as [|l].
    + rewrite !(reconcile_nil _ _ _ _ Hov).
      assert (Hiff : Forall (λ kv, kv.2 = "") (ro1 (contents h updates))
                     ↔ Forall (λ kv, kv.2 = "") (ro2 (contents h updates)))
        by by rewrite (Hro1 _), (Hro2 _).
      destruct (decide (Forall _ (ro1 _))) as [H1|H1],
               (decide (Forall _ (ro2 _))) as [H2|H2]; try done.
      * by apply Hiff in H1.
      * by apply Hiff in H2.
    + rewrite !(reconcile_ref _ _ _ _ _ Hov Hvalid).
      set (r1 := foldl remove_step (contents h (ref l), []) removals).
      set (U := contents h updates).
      destruct (update_all_admissible ro1 U r1.1 [] Hro1) as [Hm1 _].
      destruct (update_all_admissible ro2 U r1.1 [] Hro2) as [Hm2 _].
      destruct (update_all_spec (ro1 U) r1.1 [] (admissible_NoDup ro1 U Hro1))
        as [_ Ha1].
      destruct (update_all_spec (ro2 U) r1.1 [] (admissible_NoDup ro2 U Hro2))
        as [_ Ha2].
      assert (Hmap : (foldl update_step (r1.1, []) (ro1 U)).1
                     = (foldl update_step (r1.1, []) (ro2 U)).1).
      { apply map_eq. intros k. by rewrite Hm1, Hm2. }
      cbn [Removed Missing Updated]. split_and!; try done.
      * by rewrite Hmap.
      * rewrite Ha1, Ha2. simpl. by rewrite (Hro1 U), (Hro2 U).
  - rewrite !reconcile_conflict by (by rewrite Hov). done.
Qed.

Lemma iteration_order_irrelevant_witness :
  match getUpdatedPropsAndUpdateSummary map_to_list (ref 1%positive) ["b"; "c"]
          (ref 2%positive) Sample.heap0,
        getUpdatedPropsAndUpdateSummary (λ m, reverse (map_to_list m))
          (ref 1%positive) ["b"; "c"] (ref 2%positive) Sample.heap0 with
  | Done (P1, s1, e1) h1, Done (P2, s2, e2) h2 =>
      P1 = P2 ∧ e1 = e2 ∧ h1 = h2
      ∧ Removed s1 = Removed s2
      ∧ Missing s1 = Missing s2
      ∧ Updated s1 ≡ₚ Updated s2
  | Panic h1, Panic h2 => h1 = h2
  | _, _ => False
  end.
Proof.
  apply (iteration_order_irrelevant map_to_list (λ m, reverse (map_to_list m))
           Sample.heap0 (ref 1%positive) ["b"; "c"] (ref 2%positive)).
  - exact admissible_map_to_list.
  - intros m. apply reverse_Permutation.
  - exact valid_sample.
Defined.

(** X5: a call panics in exactly one situation: the current map is nil, no
    requested removal is a key of the update map, and some update value is
    not the empty string.  In particular a call on a current map object
    never panics, and neither does a call that reports a conflict. *)
Theorem panics_exactly_on_nil (ro : range_order) (h : heap) (cur : Properties)
    (removals : list string) (updates : Properties) :
  admissible ro →
  (∃ h', getUpdatedPropsAndUpdateSummary ro cur removals updates h = Panic h')
  ↔ cur = nil_map
    ∧ no_overlap (contents h updates) removals
    ∧ ∃ k v, contents h updates !! k = Some v ∧ v ≠ "".
Proof.
  intros Hro. split.
  - intros [h' Hout].
    destruct (overlap_keys (contents h updates) removals) as [|k0 o] eqn:Hov.
    + destruct cur as [|l].
      * rewrite (reconcile_nil _ _ _ _ Hov) in Hout.
        destruct (decide _) as [|Hex]; [discriminate Hout|].
        split; [done|]. split; [by apply overlap_keys_nil|].
        apply not_Forall_Exists in Hex; [|apply _].
        apply Exists_exists in Hex as ([k v] & Hin & Hne).
        exists k, v. split; [by apply (admissible_elem ro _ k v Hro)|done].
      * rewrite (reconcile_ref_gen _ _ _ _ _ Hov) in Hout. discriminate Hout.
    + rewrite reconcile_conflict in Hout by (by rewrite Hov). discriminate Hout.
  - intros (-> & Hno%overlap_keys_nil & k & v & Hk & Hv). exists h.
    rewrite (reconcile_nil _ _ _ _ Hno).
    destruct (decide _) as [Hall|_]; [|done].
    apply (admissible_elem ro _ k v Hro) in Hk.
    apply (proj1 (Forall_forall _ _) Hall) in Hk. done.
Qed.

Lemma panics_exactly_on_nil_witness :
  ∃ h', getUpdatedPropsAndUpdateSummary map_to_list nil_map ["b"; "c"]
          (ref 2%positive) Sample.heap0 = Panic h'.
Proof.
  apply (panics_exactly_on_nil map_to_list Sample.heap0 nil_map ["b"; "c"]
           (ref 2%positive) admissible_map_to_list).
  split; [reflexivity|]. split; [exact no_overlap_sample|].
  exists "d", "4". split; [reflexivity|discriminate].
Defined.

(** X6: [checkForOverlap] only reads: it returns with the heap as it found
    it, and the error is nil exactly when no requested removal is a key of
    the update map.  So a nil update map and an empty removal list never
    conflict. *)
Theorem checkForOverlap_nil_iff (removals : list string) (updates : Properties)
    (h : heap) :
  ∃ e, checkForOverlap removals updates h = Done e h
       ∧ (e = None ↔ no_overlap (contents h updates) removals)
       ∧ (updates = nil_map → e = None)
       ∧ (removals = [] → e = None).
Proof.
  eexists. split; [apply checkForOverlap_spec|].
  assert (Hiff : match overlap_keys (contents h updates) removals with
                 | [] => None
                 | o => Some (conflict_message o)
                 end = None ↔ no_overlap (contents h updates) removals).
  { rewrite <- overlap_keys_nil.
    destruct (overlap_keys (contents h updates) removals); split; done. }
  split_and!; [done| |].
  - intros ->. apply Hiff. intros k _. apply lookup_empty.
  - intros ->. apply Hiff. intros k Hk. by apply elem_of_nil in Hk.
Qed.

(** X7: with nothing to remove and no entry to update the call still goes
    through the clone: on a current map object it returns a new object with
    the same entries, on a nil map it returns nil; the three lists of the
    summary are empty. *)
Theorem empty_request_copies (ro : range_order) (h : heap) (cur : Properties)
    (updates : Properties) :
  admissible ro →
  valid h updates →
  contents h updates = ∅ →
  getUpdatedPropsAndUpdateSummary ro cur [] updates h
  = match cur with
    | nil_map => Done (nil_map, mk_summary [] [] [], None) h
    | ref _ =>
        Done (ref (fresh (dom h)), mk_summary [] [] [], None)
             (<[fresh (dom h) := contents h cur]> h)
    end.
Proof.
  intros Hro Hvalid Hempty.
  assert (Hnil : ro (contents h updates) = []).
  { apply Permutation_nil_r. by rewrite (Hro _), Hempty, map_to_list_empty. }
  destruct cur as [|l].
  - rewrite (reconcile_nil ro h [] updates eq_refl), Hnil.
    by rewrite decide_True by constructor.
  - rewrite (reconcile_ref ro h l [] updates eq_refl Hvalid). by rewrite Hnil.
Qed.

Lemma empty_request_copies_witness :
  getUpdatedPropsAndUpdateSummary map_to_list (ref 1%positive) [] nil_map
    Sample.heap0
  = Done (ref (fresh (dom Sample.heap0)), mk_summary [] [] [], None)
         (<[fresh (dom Sample.heap0) := contents Sample.heap0 (ref 1%positive)]>
            Sample.heap0).
Proof.
  apply (empty_request_copies map_to_list Sample.heap0 (ref 1%positive) nil_map
           admissible_map_to_list I eq_refl).
Defined.

(** X8: the two result slices are made with capacity [len(removals)] and
    [len(updates)], and the loops never append more than that: [Removed] is
    no longer than the removal request, [Updated] no longer than the update
    map has entries. *)
Theorem appends_within_capacity (ro : range_order) (h : heap) (cur : Properties)
    (removals : list string) (updates : Properties)
    (P : Properties) (s : PropertiesUpdateSummary) (e : error) (h' : heap) :
  admissible ro →
  valid h updates →
  getUpdatedPropsAndUpdateSummary ro cur removals updates h = Done (P, s, e) h' →
  (length (Removed s) ≤ length removals)%nat
  ∧ (length (Updated s) ≤ size (contents h updates))%nat.
Proof.
  intros Hro Hvalid Hout.
  destruct (overlap_keys (contents h updates) removals) as [|k0 o] eqn:Hov.
  - destruct cur as [|l].
    + rewrite (reconcile_nil _ _ _ _ Hov) in Hout.
      destruct (decide _); inversion Hout; subst; simpl; lia.
    + rewrite (reconcile_ref _ _ _ _ _ Hov Hvalid) in Hout.
      inversion Hout; subst; simpl. split.
      * destruct (remove_all_spec removals (default ∅ (h !! l)) [])
          as (_ & new & Hacc & Hnd & Hin).
        simpl in Hacc. rewrite Hacc. apply submseteq_length.
        apply NoDup_submseteq; [done|]. intros k Hk. by apply Hin in Hk as [? _].
      * by apply update_all_recorded.
  - rewrite reconcile_conflict in Hout by (by rewrite Hov).
    inversion Hout; subst; simpl; lia.
Qed.

Lemma appends_within_capacity_witness :
  (length ["b"] ≤ length ["b"; "c"])%nat
  ∧ (length ["d"] ≤ size (contents Sample.heap0 (ref 2%positive)))%nat.
Proof.
  apply (appends_within_capacity map_to_list Sample.heap0 (ref 1%positive)
           ["b"; "c"] (ref 2%positive) (ref 3%positive)
           (mk_summary ["b"] ["d"] ["c"]) None
           (<[3%positive := {[ "a" := "1"; "d" := "4" ]}]> Sample.heap0)
           admissible_map_to_list valid_sample).
  vm_compute. reflexivity.
Defined.

(** ** Locations *)

Lemma replicate_S_snoc (n : nat) (c : ascii) :
  Strings.replicate (S n) c = Strings.replicate n c +:+ String c "".
Proof.
  unfold Strings.replicate. change (repeat c (S n)) with (c :: repeat c n).
  by rewrite repeat_cons, string_of_list_ascii_app.
Qed.

(** A string that does not end in a slash is left alone. *)
Lemma TrimRight_no_trailing (s : string) :
  (∀ r, s ≠ r +:+ "/") → Strings.TrimRight s "/" = s.
Proof.
  intros Hno. destruct (TrimRight_slash s) as [[n Hn] _].
  destruct n as [|n].
  - rewrite Hn at 2. by rewrite string_app_nil_r.
  - exfalso. apply (Hno (Strings.TrimRight s "/" +:+ Strings.replicate n "/")).
    rewrite Hn at 1. by rewrite replicate_S_snoc, string_app_assoc.
Qed.

(** A string of slashes is trimmed to nothing. *)
Lemma TrimRight_all_slashes (n : nat) :
  Strings.TrimRight (Strings.replicate n "/") "/" = "".
Proof.
  destruct (TrimRight_slash (Strings.replicate n "/")) as [[m Hm] Hend].
  set (t := Strings.TrimRight (Strings.replicate n "/") "/") in *.
  apply (f_equal list_ascii_of_string) in Hm.
  unfold Strings.replicate in Hm.
  rewrite list_ascii_of_string_app, !list_ascii_of_string_of_list_ascii in Hm.
  destruct (list_ascii_of_string t) as [|c l _] eqn:Ht using rev_ind.
  - rewrite <- (string_of_list_ascii_of_string t), Ht. done.
  - exfalso. assert (Hc : c = "/"%char).
    { apply (repeat_spec n). rewrite Hm. rewrite <- !list_elem_of_In.
      apply elem_of_app. left. apply elem_of_app. right. by left. }
    subst c. apply (Hend (string_of_list_ascii l)).
    rewrite <- (string_of_list_ascii_of_string t), Ht.
    by rewrite string_of_list_ascii_app.
Qed.

(** X9: [WithLocation] stores its argument unchanged exactly when the
    argument does not end in a slash, and storing a stored location again
    changes nothing. *)
Theorem WithLocation_verbatim {iceberg_PartitionSpec table_SortOrder : Type}
    (cfg : createTableCfg iceberg_PartitionSpec table_SortOrder) (loc : string) :
  (location (WithLocation loc cfg) = loc ↔ ∀ r, loc ≠ r +:+ "/")
  ∧ WithLocation (location (WithLocation loc cfg)) cfg = WithLocation loc cfg
  ∧ ∀ cfg' : createTableCfg iceberg_PartitionSpec table_SortOrder,
      WithLocation (location (WithLocation loc cfg)) cfg' = WithLocation loc cfg'.
Proof.
  assert (Hidem : Strings.TrimRight (Strings.TrimRight loc "/") "/"
                  = Strings.TrimRight loc "/").
  { apply TrimRight_no_trailing. apply TrimRight_slash. }
  split_and!.
  - simpl. split.
    + intros Heq. rewrite <- Heq. apply TrimRight_slash.
    + apply TrimRight_no_trailing.
  - unfold WithLocation. simpl. by rewrite Hidem.
  - intros cfg'. unfold WithLocation. simpl. by rewrite Hidem.
Qed.

(** X10: the stored location is the empty string, the zero value of the
    field, exactly when the argument consists of slashes only; so the
    locations ["/"] and ["//"] are stored like no location at all. *)
Theorem WithLocation_empty_iff {iceberg_PartitionSpec table_SortOrder : Type}
    (cfg : createTableCfg iceberg_PartitionSpec table_SortOrder) (loc : string) :
  location (WithLocation loc cfg) = "" ↔ ∃ n, loc = Strings.replicate n "/".
Proof.
  simpl. split.
  - intros Hempty. destruct (TrimRight_slash loc) as [[n Hn] _].
    exists n. by rewrite Hempty in Hn.
  - intros [n ->]. apply TrimRight_all_slashes.
Qed.

(** X11: the four table-creation options write to four different fields:
    any two of them commute, and the four together, in the order of their
    declaration, give the record of their arguments, the location
    trimmed. *)
Theorem createTable_options_commute {iceberg_PartitionSpec table_SortOrder : Type}
    (cfg : createTableCfg iceberg_PartitionSpec table_SortOrder)
    (loc : string) (spec : option iceberg_PartitionSpec)
    (order : table_SortOrder) (props : Properties) :
  WithLocation loc (WithPartitionSpec spec cfg)
  = WithPartitionSpec spec (WithLocation loc cfg)
  ∧ WithLocation loc (WithSortOrder order cfg)
    = WithSortOrder order (WithLocation loc cfg)
  ∧ WithLocation loc (WithProperties props cfg)
    = WithProperties props (WithLocation loc cfg)
  ∧ WithPartitionSpec spec (WithSortOrder order cfg)
    = WithSortOrder order (WithPartitionSpec spec cfg)
  ∧ WithPartitionSpec spec (WithProperties props cfg)
    = WithProperties props (WithPartitionSpec spec cfg)
  ∧ WithSortOrder order (WithProperties props cfg)
    = WithProperties props (WithSortOrder order cfg)
  ∧ WithProperties props (WithSortOrder order (WithPartitionSpec spec
      (WithLocation loc cfg)))
    = mk_createTableCfg (Strings.TrimRight loc "/") spec order props.
Proof. split_and!; reflexivity. Qed.

(** ** Connection options in sequence *)

(** X12: two option calls that write to different parts of the record
    commute. *)
Theorem options_commute {aws_Config tls_Config url_URL : Type}
    (c1 c2 : option_call aws_Config tls_Config url_URL)
    (o : options aws_Config tls_Config url_URL) :
  slot c1 ≠ slot c2 →
  run_call c1 (run_call c2 o) = run_call c2 (run_call c1 o).
Proof.
  intros Hslot.
  destruct c1, c2; simpl in Hslot; try (by destruct Hslot); simpl;
    unfold WithSigV4RegionSvc; repeat case_decide; reflexivity.
Qed.

Lemma options_commute_witness :
  run_call (CallWithCredential "c") (run_call (CallWithSigV4RegionSvc "r" "")
    (options_zero (tls_Config := unit) (url_URL := unit) tt))
  = run_call (CallWithSigV4RegionSvc "r" "") (run_call (CallWithCredential "c")
      (options_zero tt)).
Proof.
  apply (options_commute (CallWithCredential "c") (CallWithSigV4RegionSvc "r" "")).
  simpl. lia.
Defined.

(** X13: of two calls that write to the same part of the record the later
    one wins, with one exception: [WithSigV4] after [WithSigV4RegionSvc]
    (it does not write the region). *)
Theorem option_overwrites {aws_Config tls_Config url_URL : Type}
    (c1 c2 : option_call aws_Config tls_Config url_URL)
    (o : options aws_Config tls_Config url_URL) :
  slot c1 = slot c2 →
  ¬ (c2 = CallWithSigV4 ∧ ∃ r s, c1 = CallWithSigV4RegionSvc r s) →
  run_call c2 (run_call c1 o) = run_call c2 o.
Proof.
  intros Hslot Hex.
  destruct c1, c2; simpl in Hslot; try discriminate Hslot; simpl;
    unfold WithSigV4RegionSvc; repeat case_decide; try reflexivity.
  all: exfalso; apply Hex; split; [reflexivity|by eexists _, _].
Qed.

Lemma option_overwrites_witness :
  run_call (CallWithSigV4RegionSvc "r2" "s2") (run_call CallWithSigV4
    (options_zero (tls_Config := unit) (url_URL := unit) tt))
  = run_call (CallWithSigV4RegionSvc "r2" "s2") (options_zero tt).
Proof.
  apply (option_overwrites CallWithSigV4 (CallWithSigV4RegionSvc "r2" "s2")).
  - reflexivity.
  - intros [Heq _]. discriminate Heq.
Defined.

(** X14: the two signing options do not commute.  [WithSigV4] after
    [WithSigV4RegionSvc region service] keeps the region and replaces the
    service by ["execute-api"], as if the service had been given empty;
    [WithSigV4RegionSvc] after [WithSigV4] is [WithSigV4RegionSvc] alone. *)
Theorem SigV4_order_matters {aws_Config tls_Config url_URL : Type}
    (o : options aws_Config tls_Config url_URL) (region service : string) :
  WithSigV4 (WithSigV4RegionSvc region service o) = WithSigV4RegionSvc region "" o
  ∧ WithSigV4RegionSvc region service (WithSigV4 o)
    = WithSigV4RegionSvc region service o
  ∧ (service ≠ "" → service ≠ "execute-api" →
     WithSigV4 (WithSigV4RegionSvc region service o)
     ≠ WithSigV4RegionSvc region service (WithSigV4 o)).
Proof.
  unfold WithSigV4RegionSvc, WithSigV4. split_and!.
  - by destruct (decide (service = "")).
  - by destruct (decide (service = "")).
  - intros Hne Hapi. destruct (decide (service = "")); [done|].
    intros Heq. apply (f_equal sigv4Service) in Heq. simpl in Heq. congruence.
Qed.

Lemma run_call_signing {aws_Config tls_Config url_URL : Type}
    (c : option_call aws_Config tls_Config url_URL)
    (o : options aws_Config tls_Config url_URL) :
  (slot c = 7%nat →
   enableSigv4 (run_call c o) = true ∧ sigv4Service (run_call c o) ≠ "")
  ∧ (slot c ≠ 7%nat →
     enableSigv4 (run_call c o) = enableSigv4 o
     ∧ sigv4Service (run_call c o) = sigv4Service o).
Proof.
  destruct c; simpl; (split; [intros Hs; try discriminate Hs|intros Hs; try done]).
  - done.
  - unfold WithSigV4RegionSvc. by destruct (decide (service = "")).
Qed.

Lemma apply_options_signing {aws_Config tls_Config url_URL : Type}
    (calls : list (option_call aws_Config tls_Config url_URL))
    (o : options aws_Config tls_Config url_URL) :
  (enableSigv4 (apply_options calls o) = true
   ↔ enableSigv4 o = true ∨ ∃ c, c ∈ calls ∧ slot c = 7%nat)
  ∧ ((enableSigv4 o = true → sigv4Service o ≠ "") →
     enableSigv4 (apply_options calls o) = true →
     sigv4Service (apply_options calls o) ≠ "").
Proof.
  revert o. induction calls as [|c calls IH]; intros o.
  - simpl. split; [|auto]. split; [auto|].
    intros [?|(c & Hc & _)]; [done|]. by apply elem_of_nil in Hc.
  - change (apply_options (c :: calls) o) with (apply_options calls (run_call c o)).
    destruct (IH (run_call c o)) as [Hen Hsvc].
    destruct (run_call_signing c o) as [Hsign Hother].
    destruct (decide (slot c = 7%nat)) as [H7|H7].
    + destruct (Hsign H7) as [Hon Hne]. split.
      * split; [|intros _; apply Hen; by left].
        intros _. right. exists c. split; [by left|done].
      * intros _. by apply Hsvc.
    + destruct (Hother H7) as [Hsame Hsvcsame]. split.
      * rewrite Hen, Hsame. split.
        -- intros [?|(c' & Hc' & Hs')]; [by left|].
           right. exists c'. split; [by right|done].
        -- intros [?|(c' & Hc' & Hs')]; [by left|].
           apply elem_of_cons in Hc' as [->|Hc']; [done|].
           right. by exists c'.
      * intros Hinv. apply Hsvc. by rewrite Hsame, Hsvcsame.
Qed.

(** X15: after any sequence of option calls on the zero-valued record,
    request signing is on exactly when one of the calls was a signing
    option, and whenever it is on the signing service is not the empty
    string. *)
Theorem signing_service_never_empty {aws_Config tls_Config url_URL : Type}
    (z : aws_Config) (calls : list (option_call aws_Config tls_Config url_URL)) :
  let o := apply_options calls (options_zero z) in
  (enableSigv4 o = true ↔ ∃ c, c ∈ calls ∧ slot c = 7%nat)
  ∧ (enableSigv4 o = true → sigv4Service o ≠ "").
Proof.
  intros o. subst o.
  destruct (apply_options_signing calls (options_zero z)) as [Hen Hsvc]. split.
  - rewrite Hen. split; [|by right]. by intros [?|?].
  - apply Hsvc. intros ?. done.
Qed.

(** ** Identifiers *)

(** X16: an empty result of [TableNameFromIdent] does not tell the empty
    identifier from an identifier whose last segment is the empty string:
    the result is empty exactly in these two cases. *)
Theorem TableNameFromIdent_empty_iff (ident : Identifier) :
  TableNameFromIdent ident = Some "" ↔ ident = [] ∨ last ident = Some "".
Proof.
  destruct ident as [|name ns _] using rev_ind.
  - split; [by left|done].
  - rewrite TableNameFromIdent_snoc, last_snoc. split; [by right|].
    intros [Hnil|?]; [|done]. by destruct ns.
Qed.

(** ** Names of operations *)

Lemma String_in_range (n : nat) :
  (n < 19)%nat → Operation.String (Z.of_nat n) = Operation.names !! n.
Proof.
  intros Hn. do 19 (destruct n as [|n]; [by vm_compute|]). lia.
Qed.

Lemma String_out_of_range (i : Z) :
  ¬ (0 ≤ i < 19)%Z →
  Operation.String i = Some ("Operation(" +:+ Operation.FormatInt10 i +:+ ")").
Proof.
  intros Hout. unfold Operation.String.
  rewrite decide_True; [done|]. change (Slice.len Operation._Operation_index) with 20%Z.
  lia.
Qed.

Lemma names_NoDup : NoDup Operation.names.
Proof. apply (bool_decide_unpack (NoDup Operation.names)). by vm_compute. Qed.

Lemma names_not_fallback (s x : string) :
  s ∈ Operation.names → s ≠ "Operation(" +:+ x.
Proof.
  unfold Operation.names. intros Hs Heq. subst s.
  repeat (apply elem_of_cons in Hs as [Hs|Hs]; [discriminate Hs|]).
  by apply elem_of_nil in Hs.
Qed.

Lemma string_app_inj_r (s1 s2 t : string) : s1 +:+ t = s2 +:+ t → s1 = s2.
Proof.
  intros Heq. apply (f_equal list_ascii_of_string) in Heq.
  rewrite !list_ascii_of_string_app in Heq. apply app_inv_tail in Heq.
  rewrite <- (string_of_list_ascii_of_string s1), Heq.
  apply string_of_list_ascii_of_string.
Qed.

(** X17: [String] never panics: the index table stays within the name
    table for each of the nineteen constants, and every other value of the
    type takes the fallback branch.  The results for the constants are the
    consecutive, non-empty pieces into which the index table cuts the name
    table. *)
Theorem String_never_panics (i : Z) :
  foldr String.append "" Operation.names = Operation._Operation_name
  ∧ ∃ s, Operation.String i = Some s
         ∧ s ≠ ""
         ∧ ((0 ≤ i < 19)%Z → Operation.names !! Z.to_nat i = Some s)
         ∧ (¬ (0 ≤ i < 19)%Z →
            s = "Operation(" +:+ Operation.FormatInt10 i +:+ ")").
Proof.
  split; [reflexivity|].
  destruct (decide (0 ≤ i < 19)%Z) as [Hin|Hout].
  - assert (Hn : (Z.to_nat i < 19)%nat) by lia.
    pose proof (String_in_range (Z.to_nat i) Hn) as Hs.
    rewrite Z2Nat.id in Hs by lia.
    destruct (lookup_lt_is_Some_2 Operation.names (Z.to_nat i)) as [s Hlook];
      [simpl; lia|].
    exists s. rewrite Hs. split_and!; [done| |done|done].
    intros ->. apply list_elem_of_lookup_2 in Hlook. unfold Operation.names in Hlook.
    repeat (apply elem_of_cons in Hlook as [Hlook|Hlook]; [discriminate Hlook|]).
    by apply elem_of_nil in Hlook.
  - eexists. split; [by apply String_out_of_range|].
    split_and!; [discriminate|done|done].
Qed.

(** X18: [String] is injective: two values of the type that print alike
    are equal, whether they are constants or not. *)
Theorem String_injective (i j : Z) :
  Operation.String i = Operation.String j → i = j.
Proof.
  intros Heq.
  assert (Hname : ∀ k, (0 ≤ k < 19)%Z →
            Operation.String k = Operation.names !! Z.to_nat k
            ∧ ∃ s, Operation.names !! Z.to_nat k = Some s).
  { intros k Hk. split.
    - rewrite <- (String_in_range (Z.to_nat k)) by lia. by rewrite Z2Nat.id by lia.
    - apply lookup_lt_is_Some_2. simpl. lia. }
  destruct (decide (0 ≤ i < 19)%Z) as [Hi|Hi], (decide (0 ≤ j < 19)%Z) as [Hj|Hj].
  - destruct (Hname i Hi) as [Hsi [s Hs]], (Hname j Hj) as [Hsj _].
    rewrite Hsi, Hsj, Hs in Heq.
    pose proof (NoDup_lookup _ _ _ _ names_NoDup Hs (eq_sym Heq)). lia.
  - destruct (Hname i Hi) as [Hsi [s Hs]].
    rewrite Hsi, Hs, (String_out_of_range j Hj) in Heq. inversion Heq as [Heq'].
    exfalso. eapply names_not_fallback; [|exact Heq'].
    by eapply list_elem_of_lookup_2.
  - destruct (Hname j Hj) as [Hsj [s Hs]].
    rewrite Hsj, Hs, (String_out_of_range i Hi) in Heq. inversion Heq as [Heq'].
    exfalso. eapply names_not_fallback; [|symmetry; exact Heq'].
    by eapply list_elem_of_lookup_2.
  - rewrite (String_out_of_range i Hi), (String_out_of_range j Hj) in Heq.
    inversion Heq as [Heq'].
    change (Operation.FormatInt10 i +:+ ")" = Operation.FormatInt10 j +:+ ")") in Heq'.
    apply string_app_inj_r in Heq'. by apply (inj pretty) in Heq'.
Qed.

Lemma String_injective_witness : 19%Z = 19%Z.
Proof. apply (String_injective 19 19). reflexivity. Defined.
